(** * konrad.convection: convective adjustment, modelled and verified

    The module [konrad/convection.py] is embedded function by function,
    and with it the two ozone treatments of [konrad/ozone.py] that cache an
    interpolant as [RelaxedTauT] does.

    Numbers.  Python floats are idealised as exact numbers.  The profile
    builders are written once over a small interface [Num] of the arithmetic
    they use and are run at two instances: canonical rationals [Qc], where
    every definition computes and equality of values is Leibniz equality,
    and the reals [R], where [np.exp] is the real exponential and the limit
    [timestep / tau -> oo] can be stated.  Rounding, NaN and infinities are
    not modelled; division by zero follows the convention [x / 0 = 0] of the
    number type.

    Arrays.  One-dimensional numpy arrays are lists.  Element-wise
    operations pair the elements of their operands; numpy's shape errors are
    not modelled, the theorems carry the shape conditions they rely on.

    Exceptions.  Code that can raise returns a [result]. *)

From Stdlib Require Import String.
From Stdlib Require Import List Bool Arith PeanoNat Lia.
From Stdlib Require Import Sorted Permutation.
From Stdlib Require Import QArith Qcanon.
From Stdlib Require Import Reals Psatz.
Import ListNotations.

Set Implicit Arguments.

(* ================================================================= *)
(** ** Python outcomes *)

Inductive exn : Type :=
| NameError (name : string)
| TypeError (msg : string)
| ValueError (msg : string)
| IndexError (msg : string)
| UnboundLocalError (name : string).

(** [OutOfFuel] is not a Python outcome: it marks a loop model that was
    given too little fuel, and is shown unreachable for the fuel used. *)
Inductive result (A : Type) : Type :=
| Return (a : A)
| Raise (e : exn)
| OutOfFuel.

Arguments Return {A} a.
Arguments Raise {A} e.
Arguments OutOfFuel {A}.

Definition bind {A B : Type} (r : result A) (k : A -> result B) : result B :=
  match r with
  | Return a => k a
  | Raise e => Raise e
  | OutOfFuel => OutOfFuel
  end.

Notation "x <- c ;; k" := (bind c (fun x => k))
  (at level 61, c at next level, right associativity).

(* ================================================================= *)
(** ** Numbers and numpy arrays *)

(** The arithmetic the profile builders use.  [ltb x y] is the float
    comparison [x < y]. *)
Class Num (A : Type) : Type := {
  zero : A;
  add : A -> A -> A;
  sub : A -> A -> A;
  mul : A -> A -> A;
  ltb : A -> A -> bool
}.

(** [x > y] *)
Definition gtb {A} `{Num A} (x y : A) : bool := ltb y x.

Section Arrays.
Context {A : Type} `{Num A}.

(** Element-wise binary operation on two arrays of the same shape. *)
Fixpoint zipWith {B C : Type} (f : A -> B -> C) (a : list A) (b : list B) : list C :=
  match a, b with
  | x :: a', y :: b' => f x y :: zipWith f a' b'
  | _, _ => []
  end.

(** [np.diff(a)]: [a[i+1] - a[i]]. *)
Fixpoint np_diff (a : list A) : list A :=
  match a with
  | x :: (y :: _) as a' => sub y x :: np_diff a'
  | _ => []
  end.

Fixpoint cumsum_from (acc : A) (a : list A) : list A :=
  match a with
  | [] => []
  | x :: a' => add acc x :: cumsum_from (add acc x) a'
  end.

(** [np.cumsum(a)]: the running sums [a[0], a[0]+a[1], ...]. *)
Definition np_cumsum (a : list A) : list A :=
  match a with
  | [] => []
  | x :: a' => x :: cumsum_from x a'
  end.

(** [np.sum(a)] *)
Definition np_sum (a : list A) : A := fold_left add a zero.

(** [np.any(mask)] *)
Definition np_any (mask : list bool) : bool := existsb (fun b => b) mask.

Fixpoint where_from (i : nat) (mask : list bool) : list nat :=
  match mask with
  | [] => []
  | b :: mask' => if b then i :: where_from (S i) mask' else where_from (S i) mask'
  end.

(** [np.where(mask)]: the indices at which [mask] is true, ascending. *)
Definition np_where (mask : list bool) : list nat := where_from 0 mask.

(** [np.max] of an index array (callers guard against the empty array). *)
Definition np_max (idx : list nat) : nat := fold_right Nat.max 0%nat idx.

(** [a[0]]; the arrays indexed this way are non-empty on well-formed
    grids. *)
Definition item0 (a : list A) : A := hd zero a.

(** The pressure thickness used for the lapse-rate integral:
    [np.hstack((np.array([p[0] - phlev[0]]), np.diff(p)))]. *)
Definition dp_lapse (p phlev : list A) : list A :=
  sub (item0 p) (item0 phlev) :: np_diff p.

(** The lapse-rate candidate [surfaceT - np.cumsum(dp_lapse * lp)], the
    expression shared by both profile builders. *)
Definition lapse_rate_candidate (p phlev : list A) (surfaceT : A) (lp : list A) : list A :=
  map (fun s => sub surfaceT s) (np_cumsum (zipWith mul (dp_lapse p phlev) lp)).

End Arrays.

(* ================================================================= *)
(** ** Instances of the number interface *)

Definition Qc_ltb (x y : Qc) : bool :=
  match (x ?= y)%Qc with Lt => true | _ => false end.

#[export] Instance Qc_Num : Num Qc := {
  zero := Q2Qc 0;
  add := Qcplus;
  sub := Qcminus;
  mul := Qcmult;
  ltb := Qc_ltb
}.

Definition R_ltb (x y : R) : bool := if Rlt_dec x y then true else false.

#[export] Instance R_Num : Num R := {
  zero := 0%R;
  add := Rplus;
  sub := Rminus;
  mul := Rmult;
  ltb := R_ltb
}.

(* ================================================================= *)
(** ** Float helpers over [Qc] *)

Local Open Scope Qc_scope.

(** [x >= y] *)
Definition Qc_geb (x y : Qc) : bool := negb (Qc_ltb x y).

(** [x <= y] *)
Definition Qc_leb (x y : Qc) : bool := negb (Qc_ltb y x).

(** [np.abs(x)] *)
Definition np_abs (x : Qc) : Qc := if Qc_ltb x 0 then - x else x.

(** A float that may be the sentinel [np.nan]. *)
Inductive float : Type :=
| finite (q : Qc)
| nan.

(** [np.min(a)]; numpy raises on a zero-size array. *)
Definition np_min (a : list Qc) : result Qc :=
  match a with
  | [] => Raise (ValueError "zero-size array to reduction operation minimum")
  | x :: a' => Return (fold_left (fun m y => if Qc_ltb y m then y else m) a' x)
  end.

Fixpoint first_true (i : nat) (mask : list bool) : nat :=
  match mask with
  | [] => 0%nat
  | b :: mask' => if b then i else first_true (S i) mask'
  end.

(** [np.argmax(mask)] on a boolean array: the first index holding [True],
    [0] when there is none; numpy raises on an empty array. *)
Definition np_argmax (mask : list bool) : result nat :=
  match mask with
  | [] => Raise (ValueError "attempt to get argmax of an empty sequence")
  | _ => Return (first_true 0 mask)
  end.

(** [a[i]] for a Python integer [i]: negative indices count from the end. *)
Definition getitem (a : list Qc) (i : Z) : result Qc :=
  let n := Z.of_nat (length a) in
  if ((0 <=? i) && (i <? n))%Z then Return (nth (Z.to_nat i) a 0)
  else if ((- n <=? i) && (i <? 0))%Z then Return (nth (Z.to_nat (n + i)) a 0)
  else Raise (IndexError "index out of bounds").

(* ================================================================= *)
(** ** [scipy.interpolate.interp1d], linear *)

(** Nodes are sorted by abscissa (stably) before use, as
    [assume_sorted=False] does. *)
Fixpoint insert_node (n : Qc * Qc) (nodes : list (Qc * Qc)) : list (Qc * Qc) :=
  match nodes with
  | [] => [n]
  | m :: nodes' =>
      if Qc_leb (fst n) (fst m) then n :: nodes else m :: insert_node n nodes'
  end.

Definition sort_nodes (x y : list Qc) : list (Qc * Qc) :=
  fold_right insert_node [] (combine x y).

(** The pair of neighbouring nodes used for [x_new]: [searchsorted]
    clipped to [1 .. len - 1]. *)
Fixpoint segment (nodes : list (Qc * Qc)) (x_new : Qc)
  : option ((Qc * Qc) * (Qc * Qc)) :=
  match nodes with
  | lo :: ((hi :: rest) as nodes') =>
      match rest with
      | [] => Some (lo, hi)
      | _ => if Qc_leb x_new (fst hi) then Some (lo, hi) else segment nodes' x_new
      end
  | _ => None
  end.

Definition linear (lo hi : Qc * Qc) (x_new : Qc) : Qc :=
  let slope := (snd hi - snd lo) / (fst hi - fst lo) in
  slope * (x_new - fst lo) + snd lo.

(** The errors of a query outside the range of the nodes. *)
Definition below_range : exn :=
  ValueError "A value in x_new is below the interpolation range.".

Definition above_range : exn :=
  ValueError "A value in x_new is above the interpolation range.".

(** [interp1d(x, y)(x_new)] with the default [bounds_error]: a query
    outside the range of [x] raises [ValueError]. *)
Definition interp1d (x y : list Qc) (x_new : Qc) : result Qc :=
  let nodes := sort_nodes x y in
  match segment nodes x_new with
  | None => Raise (ValueError "x and y arrays must have at least 2 entries")
  | Some (lo, hi) =>
      if Qc_ltb x_new (fst (hd lo nodes)) then Raise below_range
      else if Qc_ltb (fst (last nodes hi)) x_new then Raise above_range
      else Return (linear lo hi x_new)
  end.

(** [interp1d(x, y, fill_value='extrapolate')(x_new)] for an array
    [x_new], on at least two nodes: scipy rejects fewer when the
    interpolant is built, an error this function does not return. *)
Definition interp1d_extrapolate (x y x_new : list Qc) : list Qc :=
  let nodes := sort_nodes x y in
  map (fun xn => match segment nodes xn with
                 | Some (lo, hi) => linear lo hi xn
                 | None => 0
                 end) x_new.

(* ================================================================= *)
(** ** Collaborators of the module *)

(** The atmosphere container; [T] is the current row [atmosphere['T'][-1]]
    of the temperature field. *)
Record Atmosphere : Type := {
  plev : list Qc;
  phlev : list Qc;
  T : list Qc;
  H2O : list Qc;
  z : list Qc
}.

(** [atmosphere['T'][-1] = T_new] *)
Definition set_T (atmosphere : Atmosphere) (T_new : list Qc) : Atmosphere :=
  {| plev := plev atmosphere; phlev := phlev atmosphere; T := T_new;
     H2O := H2O atmosphere; z := z atmosphere |}.

(** The surface model; [fixed_temperature] is
    [isinstance(surface, SurfaceFixedTemperature)]. *)
Record Surface : Type := {
  temperature : Qc;
  heat_capacity : Qc;
  fixed_temperature : bool
}.

Definition set_temperature (surface : Surface) (T_s : Qc) : Surface :=
  {| temperature := T_s; heat_capacity := heat_capacity surface;
     fixed_temperature := fixed_temperature surface |}.

(** The humidity model: [humidity.adjust_humidity(atmosphere=...)] rewrites
    the water content of the atmosphere it is given. *)
Record Humidity : Type := {
  adjust_humidity : Atmosphere -> Atmosphere
}.

(** What the module imports and the methods of the atmosphere container it
    calls; none of them is defined in [convection.py]. *)
Record Collaborators : Type := {
  constants_g : Qc;
  constants_Lv : Qc;
  constants_earth_standard_gravity : Qc;
  (** [typhon.physics.density(p, T)], per level *)
  typhon_density : Qc -> Qc -> Qc;
  (** [typhon.physics.vmr2mixing_ratio], per level *)
  vmr2mixing_ratio : Qc -> Qc;
  (** [np.gradient] *)
  np_gradient : list Qc -> list Qc;
  (** [atmosphere.update_height()] *)
  update_height : Atmosphere -> Atmosphere;
  (** [atmosphere.get_heat_capacity()], per layer *)
  get_heat_capacity : Atmosphere -> list Qc
}.

(** The variables a [Component] holds: [self.create_variable(name, data)]
    and [self.get(name)]. *)
Definition Variables : Type := string -> option (list float).

Definition create_variable (name : string) (data : list float) (self : Variables)
  : Variables :=
  fun k => if String.eqb k name then Some data else self k.

(* ================================================================= *)
(** ** Module-level functions of [convection.py] *)

Section ModuleFunctions.
Variable env : Collaborators.

Definition energy_difference_dry (T_2 T_1 : list Qc) (sst_2 sst_1 : Qc)
           (phlev : list Qc) (Cp : list Qc) (eff_Cp_s : Qc) : Qc :=
  let g := constants_g env in
  let dT := zipWith Qcminus T_2 T_1 in
  let dT_s := sst_2 - sst_1 in
  let term_diff :=
    - np_sum (zipWith Qcmult (zipWith Qcmult (map (fun c => c / g) Cp) dT)
                             (np_diff phlev))
    + eff_Cp_s * dT_s in
  term_diff.

Definition latent_heat_difference (h2o_2 h2o_1 : list Qc) : Qc :=
  let Lv := constants_Lv env in
  let term_diff := np_sum (map (fun d => d * Lv) (zipWith Qcminus h2o_2 h2o_1)) in
  term_diff.

Definition interp_variable (variable convective_heating : list Qc) (lim : Qc)
  : result Qc :=
  positive_i <- np_argmax (map (fun h => gtb h lim) convective_heating) ;;
  k <- np_argmax (map (fun h => Qc_ltb h lim) (skipn positive_i convective_heating)) ;;
  let contop_index := (k + positive_i)%nat in
  h_lo <- getitem convective_heating (Z.of_nat contop_index - 1) ;;
  h_hi <- getitem convective_heating (Z.of_nat contop_index) ;;
  v_lo <- getitem variable (Z.of_nat contop_index - 1) ;;
  v_hi <- getitem variable (Z.of_nat contop_index) ;;
  let heat_array := [h_lo; h_hi] in
  let var_array := [v_lo; v_hi] in
  interp1d heat_array var_array lim.

(** [pressure_lapse_rate(p, phlev, T, lapse)] on a column of at least two
    levels, with [lapse] as long as the column.  On fewer levels [interp1d]
    raises when the interpolant is built; this function is total and does
    not show that error. *)
Definition pressure_lapse_rate (p phlev T lapse : list Qc) : list Qc :=
  let density_p := zipWith (typhon_density env) p T in
  let density := interp1d_extrapolate p density_p (removelast phlev) in
  let g := constants_earth_standard_gravity env in
  let lp := zipWith (fun l d => - l / (g * d)) lapse density in
  lp.

Definition update_temporary_atmosphere (atmosphere : Atmosphere) (T : list Qc)
           (humidity : Humidity) : Atmosphere :=
  update_height env (adjust_humidity humidity (set_T atmosphere T)).

Definition water_vapour_profile (atmosphere : Atmosphere) : list Qc :=
  let h2o := map (vmr2mixing_ratio env) (H2O atmosphere) in
  let rho := zipWith (typhon_density env) (plev atmosphere) (T atmosphere) in
  let dz := np_gradient env (z atmosphere) in
  zipWith Qcmult h2o (zipWith Qcmult rho dz).

End ModuleFunctions.

(* ================================================================= *)
(** ** HardAdjustment.convective_profile *)

Module HardAdjustment.

Section Profile.
Context {A : Type} `{Num A}.

(** [convective_profile(self, T_rad, p, phlev, surfaceT, lp, **kwargs)].
    The keyword arguments ([timestep], [T_old]) are ignored by the hard
    scheme. *)
Definition convective_profile (T_rad p phlev : list A) (surfaceT : A) (lp : list A)
  : list A :=
  let T_con := lapse_rate_candidate p phlev surfaceT lp in
  let mask := zipWith gtb T_con T_rad in
  if np_any mask then
    let contop := np_max (np_where mask) in
    (* T_con[contop+1:] = T_rad[contop+1:] *)
    firstn (S contop) T_con ++ skipn (S contop) T_rad
  else
    (* convective adjustment is only applied if it causes heating somewhere *)
    T_rad.

End Profile.

(** [1e13] *)
Definition ten_to_13 : Qc := Q2Qc 1e13.

(** The local variables of the root-finding loop of
    [convective_adjustment].  [surfaceT] is unbound until the first
    iteration has run. *)
Record Locals : Type := {
  surfaceTneg : Qc;
  surfaceTpos : Qc;
  diff_neg : Qc;
  diff_pos : Qc;
  T_con : list Qc;
  surfaceT : option Qc;
  counter : nat
}.

(** The names bound at the top level of [convection.py]: its imports,
    [__all__], its functions and its classes.  A name that a function
    body reads without assigning it is looked up here (and then among the
    builtins, none of which is called [T_old]). *)
Definition module_globals : list string :=
  ["abc"; "np"; "typhon"; "vmr2mixing_ratio"; "interp1d"; "constants";
   "Component"; "SurfaceFixedTemperature"; "__all__";
   "energy_difference_dry"; "latent_heat_difference"; "interp_variable";
   "pressure_lapse_rate"; "update_temporary_atmosphere";
   "water_vapour_profile"; "Convection"; "NonConvective"; "HardAdjustment";
   "RelaxedAdjustment"; "RelaxedTauT"]%string.

(** Reading a global name. *)
Definition load_global (name : string) : result unit :=
  if existsb (String.eqb name) module_globals then Return tt
  else Raise (NameError name).

(** The parameters of [convective_adjustment]. *)
Definition convective_adjustment_parameters : list string :=
  ["self"; "atmosphere"; "atmosphere_old"; "humidity"; "lapse"; "surface";
   "timestep"]%string.

(** A call that passes a keyword the callee does not declare raises
    [TypeError]. *)
Definition check_keywords (parameters keywords : list string) : result unit :=
  if forallb (fun k => existsb (String.eqb k) parameters) keywords then Return tt
  else Raise (TypeError "got an unexpected keyword argument").

Section Methods.
Variable env : Collaborators.

(** [create_and_check_profile(self, atmosphere, atmosphere_old, humidity,
    surface, surfaceT, lp, timestep=0.1)] returns [(T_con, float(diff))]. *)
Definition create_and_check_profile (atmosphere atmosphere_old : Atmosphere)
           (humidity : Humidity) (surface : Surface) (surfaceT : Qc)
           (lp : list Qc) (timestep : Qc) : list Qc * Qc :=
  let p := plev atmosphere in
  let phlev := phlev atmosphere in
  let T_rad := T atmosphere in
  let T_con := convective_profile T_rad p phlev surfaceT lp in
  let eff_Cp_s := heat_capacity surface in
  let atmosphere_con :=
    update_temporary_atmosphere env atmosphere T_con humidity in
  let h2o_old := water_vapour_profile env atmosphere_old in
  let h2o_new := water_vapour_profile env atmosphere_con in
  let diff :=
    energy_difference_dry env T_con T_rad surfaceT (temperature surface) phlev
                          (get_heat_capacity env atmosphere) eff_Cp_s in
  let wet_diff := latent_heat_difference env h2o_new h2o_old in
  (T_con, diff + wet_diff).

Section RootFinding.
(** The objective of the search: [create_and_check_profile] at a trial
    surface temperature, and the tolerance. *)
Variable objective : Qc -> list Qc * Qc.
Variable near_zero : Qc.

(** [diff_pos >= near_zero and np.abs(diff_neg) >= near_zero] *)
Definition loop_condition (st : Locals) : bool :=
  Qc_geb (diff_pos st) near_zero && Qc_geb (np_abs (diff_neg st)) near_zero.

(** The trial surface temperature of an iteration. *)
Definition proposal (st : Locals) : Qc :=
  surfaceTneg st + (surfaceTpos st - surfaceTneg st)
                   * (- diff_neg st) / (- diff_neg st + diff_pos st).

(** One pass through the loop body up to and including [counter += 1]. *)
Definition iteration (st : Locals) : Locals :=
  let surfaceT := proposal st in
  let '(T_con, diff) := objective surfaceT in
  if Qc_ltb 0 diff then
    {| surfaceTneg := surfaceTneg st; surfaceTpos := surfaceT;
       diff_neg := diff_neg st; diff_pos := diff;
       T_con := T_con; surfaceT := Some surfaceT;
       counter := (counter st + 1)%nat |}
  else
    {| surfaceTneg := surfaceT; surfaceTpos := surfaceTpos st;
       diff_neg := diff; diff_pos := diff_pos st;
       T_con := T_con; surfaceT := Some surfaceT;
       counter := (counter st + 1)%nat |}.

(** The [while] loop, with the check [counter == 100] at the end of its
    body. *)
Fixpoint while_loop (fuel : nat) (st : Locals) : result Locals :=
  if loop_condition st then
    match fuel with
    | O => OutOfFuel
    | S fuel' =>
        let st' := iteration st in
        if (counter st' =? 100)%nat then
          Raise (ValueError "No energy conserving convective profile can be found")
        else while_loop fuel' st'
    end
  else Return st.

(** The bracket the search is meant to keep: the bounds in order and the
    energy differences on either side of zero. *)
Definition bracketed (st : Locals) : Prop :=
  surfaceTneg st <= surfaceTpos st /\ diff_neg st <= 0 /\ 0 < diff_pos st.

(** The locals after [k] passes through the loop body. *)
Fixpoint after (k : nat) (st : Locals) : Locals :=
  match k with
  | O => st
  | S k' => iteration (after k' st)
  end.

End RootFinding.

(** The error of the iteration cap. *)
Definition no_profile : exn :=
  ValueError "No energy conserving convective profile can be found".

(** The locals on reaching the [while] statement. *)
Definition loop_entry (surface : Surface) (T_con : list Qc) (diff_pos : Qc)
           (surfaceTneg : Qc) : Locals :=
  let eff_Cp_s := heat_capacity surface in
  {| surfaceTneg := surfaceTneg; surfaceTpos := temperature surface;
     diff_neg := eff_Cp_s * (surfaceTneg - temperature surface);
     diff_pos := diff_pos;
     T_con := T_con; surfaceT := None; counter := 0 |}.

(** How [convective_adjustment] gets to its [while] statement: it has
    returned [(T_con, surfaceT)] already, or it starts the search with the
    pressure lapse rate, the tolerance and the locals it has computed. *)
Inductive Setup : Type :=
| Done (T_con : list Qc) (surfaceT : Qc)
| Search (lp : list Qc) (near_zero : Qc) (st : Locals).

(** The body of [convective_adjustment] before the loop. *)
Definition setup (atmosphere atmosphere_old : Atmosphere)
           (humidity : Humidity) (lapse : list Qc) (surface : Surface)
           (timestep : Qc) : result Setup :=
  let p := plev atmosphere in
  let phlev := phlev atmosphere in
  let T_rad := T atmosphere in
  let lp := pressure_lapse_rate env p phlev T_rad lapse in
  if fixed_temperature surface then
    let T_con := convective_profile T_rad p phlev (temperature surface) lp in
    Return (Done T_con (temperature surface))
  else
    let near_zero := heat_capacity surface / ten_to_13 in
    let surfaceTpos := temperature surface in
    let '(T_con, diff_pos) :=
      create_and_check_profile atmosphere atmosphere_old humidity surface
                               surfaceTpos lp timestep in
    if Qc_ltb diff_pos near_zero then Return (Done T_con (temperature surface))
    else
      surfaceTneg <- np_min T_rad ;;
      let st := loop_entry surface T_con diff_pos surfaceTneg in
      if Qc_ltb (np_abs (diff_neg st)) near_zero then Return (Done T_con surfaceTneg)
      else Return (Search lp near_zero st).

(** [convective_adjustment(self, atmosphere, atmosphere_old, humidity,
    lapse, surface, timestep=0.1)] returns [(T_con, surfaceT)]. *)
Definition convective_adjustment (atmosphere atmosphere_old : Atmosphere)
           (humidity : Humidity) (lapse : list Qc) (surface : Surface)
           (timestep : Qc) : result (list Qc * Qc) :=
  s <- setup atmosphere atmosphere_old humidity lapse surface timestep ;;
  match s with
  | Done T_con surfaceT => Return (T_con, surfaceT)
  | Search lp near_zero st =>
      st' <- while_loop
               (fun surfaceT =>
                  create_and_check_profile atmosphere atmosphere_old humidity
                                           surface surfaceT lp timestep)
               near_zero 100 st ;;
      match HardAdjustment.surfaceT st' with
      | Some surfaceT => Return (HardAdjustment.T_con st', surfaceT)
      | None => Raise (UnboundLocalError "surfaceT")
      end
  end.

(** [np.arange(0, n)] *)
Definition np_arange (n : nat) : list Qc :=
  map (fun i => Q2Qc (inject_Z (Z.of_nat i))) (seq 0 n).

(** [update_convective_top(self, T_rad, T_con, p, timestep=0.1, lim=0.2)]:
    the component's variables after the call, for profiles of one length
    and a non-zero timestep.  numpy's broadcast error on profiles of
    different lengths and the infinities of a zero timestep are not
    modelled. *)
Definition update_convective_top (self : Variables) (T_rad T_con p : list Qc)
           (timestep lim : Qc) : result Variables :=
  let convective_heating :=
    map (fun d => d / timestep) (zipWith Qcminus T_con T_rad) in
  let self := create_variable "convective_heating_rate"
                              (map finite convective_heating) self in
  diagnostics <-
    (if np_any (map (fun h => gtb h lim) convective_heating) then
       contop_p <- interp_variable p convective_heating lim ;;
       contop_T <- interp_variable T_con convective_heating lim ;;
       contop_index <- interp_variable (np_arange (length p)) convective_heating lim ;;
       Return (finite contop_index, finite contop_p, finite contop_T)
     else Return (nan, nan, nan)) ;;
  let '(contop_index, contop_p, contop_T) := diagnostics in
  Return (fold_left (fun self '(name, value) => create_variable name [value] self)
                    [("convective_top_plev", contop_p);
                     ("convective_top_temperature", contop_T);
                     ("convective_top_index", contop_index)]%string
                    self).

(** [stabilize(self, atmosphere, atmosphere_old, humidity, lapse, surface,
    timestep)] mutates [self], [atmosphere] and [surface]; the model returns
    their new values.  The call to [convective_adjustment] passes
    [T_old=T_old]: the value is read from a name that [stabilize] never
    assigns, and the keyword is one [convective_adjustment] does not
    declare. *)
Definition stabilize (self : Variables) (atmosphere atmosphere_old : Atmosphere)
           (humidity : Humidity) (lapse : list Qc) (surface : Surface)
           (timestep : Qc) : result (Variables * Atmosphere * Surface) :=
  let T_rad := T atmosphere in
  let p := plev atmosphere in
  T_old <- load_global "T_old" ;;
  _ <- check_keywords convective_adjustment_parameters
                      ["lapse"; "surface"; "T_old"; "timestep"]%string ;;
  adjusted <- convective_adjustment atmosphere atmosphere_old humidity lapse
                                    surface timestep ;;
  let '(T_new, T_s_new) := adjusted in
  self <- update_convective_top self T_rad T_new p timestep (Q2Qc 0.2) ;;
  Return (self, set_T atmosphere T_new, set_temperature surface T_s_new).

End Methods.

End HardAdjustment.

(** The energy difference as the specification words it: the candidate
    state against the radiative state [atmosphere] in both terms, the dry
    one and the latent one. *)
Definition spec_energy_difference (env : Collaborators)
           (atmosphere : Atmosphere) (humidity : Humidity) (surface : Surface)
           (surfaceT : Qc) (lp : list Qc) : Qc :=
  let T_rad := T atmosphere in
  let T_con :=
    HardAdjustment.convective_profile T_rad (plev atmosphere) (phlev atmosphere)
                                      surfaceT lp in
  let candidate := update_temporary_atmosphere env atmosphere T_con humidity in
  energy_difference_dry env T_con T_rad surfaceT (temperature surface)
                        (phlev atmosphere) (get_heat_capacity env atmosphere)
                        (heat_capacity surface)
  + latent_heat_difference env (water_vapour_profile env candidate)
                           (water_vapour_profile env atmosphere).

(* ================================================================= *)
(** ** RelaxedAdjustment, over the reals *)

Module RelaxedAdjustment.

Local Open Scope R_scope.

(** [get_convective_tau(self, p, **kwargs)]; [convective_tau] is the
    attribute [self.convective_tau] set by [__init__]. *)
Definition get_convective_tau (convective_tau : option (list R)) (p : list R)
  : list R :=
  match convective_tau with
  | Some tau => tau
  | None =>
      let tau0 := 1 / 24 in
      map (fun p_i => tau0 * exp (item0 p / p_i)) p
  end.

(** [convective_profile(self, T_rad, p, phlev, surfaceT, lp, timestep,
    T_old)] *)
Definition convective_profile (convective_tau : option (list R))
           (T_rad p phlev : list R) (surfaceT : R) (lp : list R)
           (timestep : R) (T_old : list R) : list R :=
  let tau := get_convective_tau convective_tau p in
  let tf := map (fun tau_i => 1 - exp (- timestep / tau_i)) tau in
  let T_con :=
    zipWith Rplus (zipWith Rmult T_rad (map (fun tf_i => 1 - tf_i) tf))
                  (zipWith Rmult tf (lapse_rate_candidate p phlev surfaceT lp)) in
  T_con.

End RelaxedAdjustment.

(** The limit statement of the relaxed scheme: the relaxed profile comes
    within any [eps] of [target] at every level once [timestep / tau]
    exceeds some bound at every level, whatever timescale profile [tau] the
    scheme uses. *)
Definition relaxed_converges_to (T_rad p phlev : list R) (surfaceT : R)
           (lp : list R) (target : list R) : Prop :=
  forall eps : R, (0 < eps)%R ->
  exists M : R,
  forall (timestep : R) (convective_tau : option (list R)) (T_old : list R),
    let tau := RelaxedAdjustment.get_convective_tau convective_tau p in
    length tau = length T_rad ->
    (forall i, (i < length tau)%nat -> (M < timestep / nth i tau 0)%R) ->
    forall i, (i < length T_rad)%nat ->
      (Rabs (nth i (RelaxedAdjustment.convective_profile
                      convective_tau T_rad p phlev surfaceT lp timestep T_old) 0
             - nth i target 0) < eps)%R.

(* ================================================================= *)
(** ** Concrete columns *)

Module Column.

Definition arr (a : list Q) : list Qc := map Q2Qc a.

(** [np.gradient] of a one-dimensional array with unit spacing: one-sided
    differences at the ends, central differences inside. *)
Fixpoint gradient_inner (prev : Qc) (a : list Qc) : list Qc :=
  match a with
  | [] => []
  | [x] => [x - prev]
  | x :: ((y :: _) as a') => (y - prev) / Q2Qc 2 :: gradient_inner x a'
  end.

Definition gradient (a : list Qc) : list Qc :=
  match a with
  | x :: ((y :: _) as a') => (y - x) :: gradient_inner x a'
  | _ => []
  end.

(** Dry air as an ideal gas, the mass mixing ratio of water vapour, a
    height field that is kept as it is, and a constant heat capacity of
    air per layer. *)
Definition earth : Collaborators :=
  {| constants_g := Q2Qc 9.81;
     constants_Lv := Q2Qc 2500000;
     constants_earth_standard_gravity := Q2Qc 9.81;
     typhon_density := fun p T => p / (Q2Qc 287 * T);
     vmr2mixing_ratio := fun x => Q2Qc 0.622 * x / (1 - x);
     np_gradient := gradient;
     update_height := fun atmosphere => atmosphere;
     get_heat_capacity := fun atmosphere => map (fun _ => Q2Qc 1004) (plev atmosphere) |}.

(** A humidity model that keeps the volume mixing ratio as it is. *)
Definition fixed_vmr : Humidity := {| adjust_humidity := fun atmosphere => atmosphere |}.

(** A slab ocean of 50 m depth. *)
Definition slab (T_s : Q) : Surface :=
  {| temperature := Q2Qc T_s; heat_capacity := Q2Qc 210000000;
     fixed_temperature := false |}.

(** A two-level column on the grid [plev = [900, 500] hPa]. *)
Definition column (T H2O : list Q) : Atmosphere :=
  {| plev := arr [90000; 50000]; phlev := arr [100000; 70000; 30000];
     T := arr T; H2O := arr H2O; z := arr [1000; 5500] |}.

(** The columns of the worked cases. *)

(** An inversion under a surface as cold as the coldest level, with a
    critical lapse rate of -1 K/km. *)
Definition inversion : Atmosphere := column [250; 260]%Q [0.002; 0.001]%Q.
Definition inversion_lapse : list Qc := arr [-0.001; -0.001]%Q.

(** A dry column over a warm surface, adjusted to an isothermal profile. *)
Definition dry : Atmosphere := column [300; 250]%Q [0; 0]%Q.
Definition isothermal_lapse : list Qc := arr [0; 0]%Q.

(** A column that has been moistened since the previous timestep, over a
    surface colder than all of it. *)
Definition moist : Atmosphere := column [285; 260]%Q [0.01; 0.005]%Q.
Definition moist_before : Atmosphere := column [285; 260]%Q [0.005; 0.002]%Q.
Definition moist_lapse : list Qc := arr [0.0065; 0.0065]%Q.

(** A contrived atmosphere container: [update_height] sets the layer
    thickness so that the energy difference of a trial profile [[x; x]] over
    the surface at 305 K is [27.5 * heat_capacity / (x - 250.5)] as long as
    [x] is above 255.25 K and [0] from there on.  With the lower bound at
    250 K and [diff_neg = - 55 * heat_capacity], each trial then lowers the
    upper bound by half a kelvin: 304.5 K, 304 K, ..., 255.5 K at the 99th
    trial, and 255 K, where the energy difference is zero, at the
    hundredth. *)
Definition contrived_height (atmosphere : Atmosphere) : Atmosphere :=
  let x := item0 (T atmosphere) in
  let surface := slab 305 in
  let dry_diff :=
    energy_difference_dry earth (T atmosphere) (arr [300; 250]%Q) x
                          (temperature surface) (phlev atmosphere)
                          (get_heat_capacity earth atmosphere)
                          (heat_capacity surface) in
  let target :=
    if Qc_leb x (Q2Qc 255.25) then 0
    else Q2Qc 27.5 * heat_capacity surface / (x - Q2Qc 250.5) in
  let vapour_per_metre :=
    np_sum (zipWith Qcmult (map (vmr2mixing_ratio earth) (H2O atmosphere))
                    (zipWith (typhon_density earth) (plev atmosphere)
                             (T atmosphere))) in
  let dz := (target - dry_diff) / constants_Lv earth / vapour_per_metre in
  {| plev := plev atmosphere; phlev := phlev atmosphere; T := T atmosphere;
     H2O := H2O atmosphere; z := [0; dz] |}.

Definition contrived : Collaborators :=
  {| constants_g := constants_g earth;
     constants_Lv := constants_Lv earth;
     constants_earth_standard_gravity := constants_earth_standard_gravity earth;
     typhon_density := typhon_density earth;
     vmr2mixing_ratio := vmr2mixing_ratio earth;
     np_gradient := gradient;
     update_height := contrived_height;
     get_heat_capacity := get_heat_capacity earth |}.

Definition humid : Atmosphere := column [300; 250]%Q [0.01; 0.01]%Q.
Definition dry_before : Atmosphere := column [300; 250]%Q [0; 0]%Q.

End Column.

(* ================================================================= *)
(** ** [interp1d] objects and array queries *)

(** The error of an empty atmosphere in [np.min]. *)
Definition empty_profile : exn :=
  ValueError "zero-size array to reduction operation minimum".

(** [interp1d(x, y)], the interpolant as its nodes sorted by abscissa.
    The constructor rejects arrays of different lengths; as in [interp1d]
    above, fewer than two nodes are rejected too. *)
Definition interp1d_new (x y : list Qc) : result (list (Qc * Qc)) :=
  if negb (length x =? length y)%nat then
    Raise (ValueError
             "x and y arrays must be equal in length along interpolation axis.")
  else if (length x <? 2)%nat then
    Raise (ValueError "x and y arrays must have at least 2 entries")
  else Return (sort_nodes x y).

(** The value of the interpolant at one abscissa. *)
Definition interp1d_eval (nodes : list (Qc * Qc)) (x_new : Qc) : Qc :=
  match segment nodes x_new with
  | Some (lo, hi) => linear lo hi x_new
  | None => 0
  end.

(** [f(x_new)] for an array [x_new], with the default [bounds_error]:
    any entry below the first node raises, then any entry above the last
    one. *)
Definition interp1d_call (nodes : list (Qc * Qc)) (x_new : list Qc)
  : result (list Qc) :=
  match nodes with
  | lo :: _ :: _ =>
      if existsb (fun xn => Qc_ltb xn (fst lo)) x_new then Raise below_range
      else if existsb (fun xn => Qc_ltb (fst (last nodes lo)) xn) x_new then
        Raise above_range
      else Return (map (interp1d_eval nodes) x_new)
  | _ => Raise (ValueError "x and y arrays must have at least 2 entries")
  end.

(* ================================================================= *)
(** ** RelaxedTauT *)

Module RelaxedTauT.

(** The attributes of an instance: [convective_tau] and the cached
    interpolant [tau_function]. *)
Record State : Type := {
  convective_tau : option (list Qc);
  tau_function : option (list (Qc * Qc))
}.

(** [__init__(self, tau=None)] *)
Definition init (tau : option (list Qc)) : State :=
  {| convective_tau := tau; tau_function := None |}.

Section Methods.
(** [np.exp] on floats. *)
Variable np_exp : Qc -> Qc.

(** [tau0 * np.exp(p[0] / p)] with [tau0 = 1 / 24]; [p[0]] of an empty
    array raises. *)
Definition default_tau (p : list Qc) : result (list Qc) :=
  match p with
  | [] => Raise (IndexError "index 0 is out of bounds for axis 0 with size 0")
  | p_0 :: _ =>
      let tau0 := 1 / Q2Qc 24 in (* 1 hour *)
      Return (map (fun p_i => tau0 * np_exp (p_0 / p_i)) p)
  end.

(** [get_convective_tau(self, p, T_old)]: the value returned or the
    exception raised, and the attributes of the instance afterwards. *)
Definition get_convective_tau (self : State) (p T_old : list Qc)
  : result (list Qc) * State :=
  match (match convective_tau self with
         | None => default_tau p (* first time only if not specified *)
         | Some tau => Return tau
         end) with
  | Return tau =>
      let self :=
        {| convective_tau := Some tau; tau_function := tau_function self |} in
      match tau_function self with
      | None => (* first time only *)
          match interp1d_new T_old tau with
          | Return f =>
              (interp1d_call f T_old,
               {| convective_tau := Some tau; tau_function := Some f |})
          | Raise e => (Raise e, self)
          | OutOfFuel => (OutOfFuel, self)
          end
      | Some f => (interp1d_call f T_old, self)
      end
  | Raise e => (Raise e, self)
  | OutOfFuel => (OutOfFuel, self)
  end.

End Methods.

End RelaxedTauT.

(** The order of the nodes of a sorted interpolant. *)
Definition before (a b : Qc * Qc) : Prop := fst a < fst b.


(* ================================================================= *)
(** ** [konrad/ozone.py] *)

Module OzoneHeight.

(** The attribute [self._f]: the cached interpolant of ozone against
    height. *)
Definition State : Type := option (list (Qc * Qc)).

(** [__init__(self)] *)
Definition init : State := None.

(** [get(self, atmos, **kwargs)] for [z = atmos['z'][0, :]] and
    [O3 = atmos['O3']]: the new value of [atmos['O3']] or the exception
    raised, and [self._f] afterwards. *)
Definition get (self : State) (z O3 : list Qc) : result (list Qc) * State :=
  match self with
  | None =>
      match interp1d_new z O3 with
      | Return f => (Return (map (interp1d_eval f) z), Some f)
      | Raise e => (Raise e, None)
      | OutOfFuel => (OutOfFuel, None)
      end
  | Some f => (Return (map (interp1d_eval f) z), Some f)
  end.

End OzoneHeight.

Module OzoneNormedPressure.

(** The attributes [self.norm_level] and [self._f]. *)
Record State : Type := {
  norm_level : option Qc;
  _f : option (list (Qc * Qc))
}.

(** [__init__(self, norm_level=None)] *)
Definition init (norm_level : option Qc) : State :=
  {| norm_level := norm_level; _f := None |}.

(** [get(self, atmos, radheat, **kwargs)] for [plev = atmos['plev']],
    [O3 = atmos['O3'][0, :]] and [convective_top] the value of
    [atmos.get_convective_top(radheat)]. *)
Definition get (self : State) (plev O3 : list Qc) (convective_top : Qc)
  : result (list Qc) * State :=
  let norm :=
    match norm_level self with
    | None => convective_top
    | Some norm => norm
    end in
  let self := {| norm_level := Some norm; _f := _f self |} in
  let norm_new := convective_top in
  match _f self with
  | None =>
      match interp1d_new (map (fun p => p / norm) plev) O3 with
      | Return f =>
          (Return (map (interp1d_eval f) (map (fun p => p / norm_new) plev)),
           {| norm_level := Some norm; _f := Some f |})
      | Raise e => (Raise e, self)
      | OutOfFuel => (OutOfFuel, self)
      end
  | Some f =>
      (Return (map (interp1d_eval f) (map (fun p => p / norm_new) plev)), self)
  end.

End OzoneNormedPressure.

(* ================================================================= *)
(** ** Proof automation *)

(** Moves a goal or hypotheses about [Qc] to [Q], where [lra] and [nra]
    apply. *)
Ltac to_Q :=
  unfold Qcle, Qclt, Qcdiv, Qcinv, Qcminus, Qcopp, Qcmult, Qcplus in *;
  cbn [this Q2Qc] in *;
  repeat match goal with
         | H : context [Qred _] |- _ => rewrite Qred_correct in H
         end;
  rewrite ?Qred_correct.

(** Refutes an equation between two distinct [Qc] constants. *)
Ltac Qc_discriminate :=
  let H := fresh "H" in
  intros H; apply (f_equal this) in H; vm_compute in H; discriminate H.

(* ================================================================= *)
(** * Properties *)

(** ** Arrays *)

Section ArrayFacts.
Context {A : Type} `{Num A}.

Lemma zipWith_length {B C : Type} (f : A -> B -> C) (a : list A) (b : list B) :
  length (zipWith f a b) = Nat.min (length a) (length b).
Proof.
  revert b; induction a as [|x a IH]; intros [|y b]; simpl; auto.
Qed.

Lemma zipWith_nth {B C : Type} (f : A -> B -> C) (a : list A) (b : list B)
      (i : nat) (da : A) (db : B) (dc : C) :
  (i < length a)%nat -> (i < length b)%nat ->
  nth i (zipWith f a b) dc = f (nth i a da) (nth i b db).
Proof.
  revert b i; induction a as [|x a IH]; intros [|y b] [|i]; simpl; intros;
    try lia; auto.
  apply IH; lia.
Qed.

Lemma np_diff_length (a : list A) : length (np_diff a) = pred (length a).
Proof.
  induction a as [|x [|y a] IH]; simpl in *; auto.
Qed.

Lemma cumsum_from_length (acc : A) (a : list A) :
  length (cumsum_from acc a) = length a.
Proof.
  revert acc; induction a; simpl; auto.
Qed.

Lemma np_cumsum_length (a : list A) : length (np_cumsum a) = length a.
Proof.
  destruct a; simpl; auto using cumsum_from_length.
Qed.

Lemma lapse_rate_candidate_length (p phlev lp : list A) (surfaceT : A) (n : nat) :
  length p = n -> length lp = n ->
  length (lapse_rate_candidate p phlev surfaceT lp) = n.
Proof.
  intros Hp Hlp. unfold lapse_rate_candidate, dp_lapse.
  rewrite length_map, np_cumsum_length, zipWith_length. cbn [length].
  rewrite np_diff_length. lia.
Qed.

Lemma np_any_false (mask : list bool) :
  np_any mask = false <-> forall i, (i < length mask)%nat -> nth i mask false = false.
Proof.
  unfold np_any. induction mask as [|b m IH]; simpl.
  - split; auto. intros _ i Hi; lia.
  - rewrite orb_false_iff, IH. split.
    + intros [Hb Hm] [|i] Hi; auto. apply Hm; lia.
    + intros Hall. split.
      * apply (Hall 0%nat); lia.
      * intros i Hi. apply (Hall (S i)); lia.
Qed.

Lemma where_from_In (k : nat) (mask : list bool) (i : nat) :
  In i (where_from k mask) <->
  (k <= i)%nat /\ (i - k < length mask)%nat /\ nth (i - k) mask false = true.
Proof.
  revert k; induction mask as [|b m IH]; intros k.
  - simpl. split; [tauto | intros (_ & Hi & _); lia].
  - assert (Hstep : In i (where_from (S k) m) <->
                    (k < i)%nat /\ (i - S k < length m)%nat /\
                    nth (i - S k) m false = true).
    { rewrite IH. intuition lia. }
    cbn [where_from length].
    destruct (Nat.eq_dec i k) as [->|Hne].
    + rewrite Nat.sub_diag. cbn [nth].
      destruct b; cbn [In]; rewrite ?Hstep; intuition (try lia; try discriminate).
    + destruct (Nat.lt_ge_cases i k) as [Hlt|Hge].
      * destruct b; cbn [In]; rewrite ?Hstep; intuition lia.
      * replace (i - k)%nat with (S (i - S k)) by lia. cbn [nth].
        destruct b; cbn [In]; rewrite ?Hstep; intuition lia.
Qed.

Lemma np_where_In (mask : list bool) (i : nat) :
  In i (np_where mask) <-> (i < length mask)%nat /\ nth i mask false = true.
Proof.
  unfold np_where. rewrite where_from_In, Nat.sub_0_r. split.
  - tauto.
  - intros [? ?]; repeat split; auto; lia.
Qed.

Lemma np_max_upper (idx : list nat) (i : nat) : In i idx -> (i <= np_max idx)%nat.
Proof.
  unfold np_max. induction idx as [|j idx IH]; simpl; [tauto|].
  intros [-> | Hin]; [lia | specialize (IH Hin); lia].
Qed.

Lemma np_max_In (idx : list nat) : idx <> [] -> In (np_max idx) idx.
Proof.
  unfold np_max. induction idx as [|j idx IH]; [congruence|]. intros _. simpl.
  destruct idx as [|k idx'].
  - left. simpl. lia.
  - assert (Hin : In (fold_right Nat.max 0%nat (k :: idx')) (k :: idx'))
      by (apply IH; congruence).
    destruct (Nat.max_spec j (fold_right Nat.max 0%nat (k :: idx'))) as [[_ E]|[_ E]];
      rewrite E; auto.
Qed.

(** The greatest index of a mask at which it is true. *)
Lemma np_max_where_top (mask : list bool) (top : nat) :
  (top < length mask)%nat -> nth top mask false = true ->
  (forall j, (top < j < length mask)%nat -> nth j mask false = false) ->
  np_max (np_where mask) = top.
Proof.
  intros Htop Hnth Habove.
  assert (Hin : In top (np_where mask)) by (apply np_where_In; auto).
  assert (Hne : np_where mask <> []) by (intros E; rewrite E in Hin; inversion Hin).
  pose proof (np_max_upper _ _ Hin) as Hle.
  pose proof (np_max_In Hne) as Hmax.
  apply np_where_In in Hmax. destruct Hmax as [Hlt Htrue].
  destruct (Nat.eq_dec (np_max (np_where mask)) top) as [E|NE]; auto.
  rewrite Habove in Htrue; [discriminate | lia].
Qed.

Lemma nth_splice (a b : list A) (k i : nat) (d : A) :
  length a = length b ->
  nth i (firstn k a ++ skipn k b) d = if (i <? k)%nat then nth i a d else nth i b d.
Proof.
  intros Hlen. destruct (Nat.ltb_spec i k) as [Hik|Hik].
  - destruct (Nat.lt_ge_cases i (length a)) as [Hia|Hia].
    + rewrite app_nth1 by (rewrite length_firstn; lia).
      rewrite nth_firstn. destruct (Nat.ltb_spec i k); auto; lia.
    + rewrite !nth_overflow; auto.
      rewrite length_app, length_firstn, length_skipn. lia.
  - destruct (Nat.lt_ge_cases k (length a)) as [Hka|Hka].
    + rewrite app_nth2 by (rewrite length_firstn; lia).
      rewrite length_firstn, Nat.min_l by lia.
      rewrite nth_skipn. f_equal. lia.
    + rewrite firstn_all2 by lia. rewrite skipn_all2 by lia.
      rewrite app_nil_r. rewrite !nth_overflow; auto; lia.
Qed.

End ArrayFacts.

(** ** The hard profile builder *)

Section HardProfileFacts.
Context {A : Type} `{Num A}.

(** C3.  On a grid whose arrays all have the length of [T_rad],
    [HardAdjustment.convective_profile] returns (i) the radiative profile
    itself when the lapse-rate candidate [surfaceT - cumsum(dp * lp)] exceeds
    it at no level, and (ii) otherwise, with [top] the highest index at which
    the candidate exceeds the radiative profile, the candidate at every index
    up to and including [top] and the radiative value at every index above
    it. *)
Theorem convective_profile_cases
        (T_rad p phlev lp : list A) (surfaceT : A) :
  length p = length T_rad -> length lp = length T_rad ->
  let candidate := lapse_rate_candidate p phlev surfaceT lp in
  let T_con := HardAdjustment.convective_profile T_rad p phlev surfaceT lp in
  ((forall i, (i < length T_rad)%nat ->
              gtb (nth i candidate zero) (nth i T_rad zero) = false) ->
   T_con = T_rad)
  /\
  (forall top, (top < length T_rad)%nat ->
     gtb (nth top candidate zero) (nth top T_rad zero) = true ->
     (forall j, (top < j < length T_rad)%nat ->
                gtb (nth j candidate zero) (nth j T_rad zero) = false) ->
     length T_con = length T_rad /\
     forall i, (i < length T_rad)%nat ->
       nth i T_con zero =
       if (i <=? top)%nat then nth i candidate zero else nth i T_rad zero).
Proof.
  intros Hp Hlp candidate T_con.
  assert (Hc : length candidate = length T_rad)
    by (apply lapse_rate_candidate_length; auto).
  assert (Hmlen : length (zipWith gtb candidate T_rad) = length T_rad)
    by (rewrite zipWith_length; lia).
  assert (Hm : forall i, (i < length T_rad)%nat ->
             nth i (zipWith gtb candidate T_rad) false =
             gtb (nth i candidate zero) (nth i T_rad zero)).
  { intros i Hi. apply zipWith_nth; lia. }
  split.
  - intros Hnone. subst T_con. unfold HardAdjustment.convective_profile.
    fold candidate.
    replace (np_any (zipWith gtb candidate T_rad)) with false; auto.
    symmetry. apply np_any_false. intros i Hi.
    rewrite Hm by lia. apply Hnone; lia.
  - intros top Htop Hex Habove.
    assert (Hany : np_any (zipWith gtb candidate T_rad) = true).
    { destruct (np_any (zipWith gtb candidate T_rad)) eqn:E; auto.
      rewrite np_any_false in E. rewrite <- Hex, <- (Hm top Htop).
      symmetry. apply E. lia. }
    assert (Hmax : np_max (np_where (zipWith gtb candidate T_rad)) = top).
    { apply np_max_where_top.
      - lia.
      - rewrite Hm; auto.
      - intros j Hj. rewrite Hm by lia. apply Habove. lia. }
    subst T_con. unfold HardAdjustment.convective_profile. fold candidate.
    rewrite Hany, Hmax. split.
    + rewrite length_app, length_firstn, length_skipn. lia.
    + intros i Hi. rewrite nth_splice by auto.
      destruct (Nat.ltb_spec i (S top)), (Nat.leb_spec i top); auto; lia.
Qed.

End HardProfileFacts.

(** ** Order on [Qc] *)

Lemma Qc_ltb_lt (x y : Qc) : Qc_ltb x y = true <-> x < y.
Proof.
  unfold Qc_ltb. rewrite Qclt_alt. destruct (x ?= y); split; congruence.
Qed.

Lemma Qc_ltb_ge (x y : Qc) : Qc_ltb x y = false <-> y <= x.
Proof.
  split.
  - intros E. apply Qcnot_lt_le. intros L. apply Qc_ltb_lt in L. congruence.
  - intros L. destruct (Qc_ltb x y) eqn:E; auto.
    apply Qc_ltb_lt in E. exfalso. exact (Qclt_not_le _ _ E L).
Qed.

Lemma Qc_geb_ge (x y : Qc) : Qc_geb x y = true <-> y <= x.
Proof.
  unfold Qc_geb. rewrite negb_true_iff. apply Qc_ltb_ge.
Qed.

Lemma Qc_geb_lt (x y : Qc) : Qc_geb x y = false <-> x < y.
Proof.
  unfold Qc_geb. rewrite negb_false_iff. apply Qc_ltb_lt.
Qed.

Lemma np_abs_pos (x : Qc) : 0 <= x -> np_abs x = x.
Proof.
  intros Hx. unfold np_abs. now rewrite (proj2 (Qc_ltb_ge x 0) Hx).
Qed.

Lemma np_abs_neg (x : Qc) : x < 0 -> np_abs x = - x.
Proof.
  intros Hx. unfold np_abs. now rewrite (proj2 (Qc_ltb_lt x 0) Hx).
Qed.

Lemma ten_to_13_pos : 0 < HardAdjustment.ten_to_13.
Proof. reflexivity. Qed.

Lemma Qc_div_pos (a b : Qc) : 0 < a -> 0 < b -> 0 < a / b.
Proof.
  intros Ha Hb. to_Q.
  apply Qmult_lt_0_compat; auto. apply Qinv_lt_0_compat; auto.
Qed.

(** ** The root-finding loop *)

(** The loop runs while both bounds are out of tolerance, and stops as soon
    as one of them is within it. *)
Lemma loop_condition_true (near_zero : Qc) (st : HardAdjustment.Locals) :
  HardAdjustment.loop_condition near_zero st = true <->
  near_zero <= HardAdjustment.diff_pos st /\
  near_zero <= np_abs (HardAdjustment.diff_neg st).
Proof.
  unfold HardAdjustment.loop_condition.
  rewrite andb_true_iff, !Qc_geb_ge. tauto.
Qed.

Lemma loop_condition_false (near_zero : Qc) (st : HardAdjustment.Locals) :
  HardAdjustment.loop_condition near_zero st = false <->
  HardAdjustment.diff_pos st < near_zero \/
  np_abs (HardAdjustment.diff_neg st) < near_zero.
Proof.
  unfold HardAdjustment.loop_condition.
  rewrite andb_false_iff, !Qc_geb_lt. tauto.
Qed.

Section LoopFacts.
Import HardAdjustment.
Variable objective : Qc -> list Qc * Qc.
Variable near_zero : Qc.

(** What one pass through the body assigns. *)
Lemma iteration_assigns (st : Locals) :
  let x := proposal st in
  let d := snd (objective x) in
  counter (iteration objective st) = (counter st + 1)%nat /\
  surfaceT (iteration objective st) = Some x /\
  T_con (iteration objective st) = fst (objective x) /\
  (0 < d ->
   surfaceTpos (iteration objective st) = x /\ diff_pos (iteration objective st) = d /\
   surfaceTneg (iteration objective st) = surfaceTneg st /\
   diff_neg (iteration objective st) = diff_neg st) /\
  (d <= 0 ->
   surfaceTneg (iteration objective st) = x /\ diff_neg (iteration objective st) = d /\
   surfaceTpos (iteration objective st) = surfaceTpos st /\
   diff_pos (iteration objective st) = diff_pos st).
Proof.
  intros x d. subst x d. unfold HardAdjustment.iteration.
  destruct (objective (proposal st)) as [Tc diff]. cbn [fst snd].
  destruct (Qc_ltb 0 diff) eqn:E; cbn.
  - apply Qc_ltb_lt in E. split; [|split; [|split; [|split]]]; auto.
    intros Hd. exfalso. exact (Qclt_not_le _ _ E Hd).
  - apply Qc_ltb_ge in E. split; [|split; [|split; [|split]]]; auto.
    intros Hd. exfalso. exact (Qclt_not_le _ _ Hd E).
Qed.

Lemma counter_iteration (st : Locals) :
  counter (iteration objective st) = (counter st + 1)%nat.
Proof. apply iteration_assigns. Qed.

Lemma after_shift (k : nat) (st : Locals) :
  after objective (S k) st = after objective k (iteration objective st).
Proof.
  induction k as [|k IH]; [reflexivity|].
  change (after objective (S (S k)) st) with (iteration objective (after objective (S k) st)).
  rewrite IH. reflexivity.
Qed.

(** The outcome of the loop in terms of the states [after j st]: it returns
    the first state at which its condition is false, found within
    [fuel - 1] iterations, and raises when the condition holds at all of
    [after 0 st .. after (fuel - 1) st]. *)
Lemma while_loop_outcome (fuel : nat) (st : Locals) :
  (counter st + fuel = 100)%nat -> (1 <= fuel)%nat ->
  match while_loop objective near_zero fuel st with
  | Return st' =>
      exists k, (k < fuel)%nat /\ st' = after objective k st /\
                loop_condition near_zero st' = false /\
                forall j, (j < k)%nat -> loop_condition near_zero (after objective j st) = true
  | Raise e =>
      e = no_profile /\
      forall j, (j < fuel)%nat -> loop_condition near_zero (after objective j st) = true
  | OutOfFuel => False
  end.
Proof.
  revert st. induction fuel as [|fuel IH]; intros st Hc Hf; [lia|].
  cbn [HardAdjustment.while_loop].
  destruct (loop_condition near_zero st) eqn:Econd.
  - rewrite counter_iteration.
    destruct (Nat.eqb_spec (counter st + 1) 100) as [E100|N100].
    + split; [reflexivity|]. intros j Hj. replace j with 0%nat by lia. exact Econd.
    + specialize (IH (iteration objective st)). rewrite counter_iteration in IH.
      assert (Hc' : (counter st + 1 + fuel = 100)%nat) by lia.
      assert (Hf' : (1 <= fuel)%nat) by lia.
      specialize (IH Hc' Hf').
      destruct (while_loop objective near_zero fuel (iteration objective st)) as [st'|e|]; auto.
      * destruct IH as (k & Hk & Hst & Hfalse & Hbefore).
        exists (S k). split; [lia|]. split; [|split; [exact Hfalse|]].
        -- rewrite after_shift. exact Hst.
        -- intros [|j] Hj; [exact Econd|].
           rewrite after_shift. apply Hbefore. lia.
      * destruct IH as (He & Hall). split; auto.
        intros [|j] Hj; [exact Econd|].
        rewrite after_shift. apply Hall. lia.
  - exists 0%nat. split; [lia|]. split; [reflexivity|]. split; [exact Econd|].
    intros j Hj; lia.
Qed.

(** With the fuel [convective_adjustment] gives it, the loop model never
    runs out of fuel: the Python loop terminates. *)
Lemma while_loop_terminates (st : Locals) :
  counter st = 0%nat -> while_loop objective near_zero 100 st <> OutOfFuel.
Proof.
  intros Hc E. pose proof (@while_loop_outcome 100 st) as H.
  rewrite E in H. apply H; lia.
Qed.

Lemma while_loop_returns (st st' : Locals) :
  counter st = 0%nat ->
  (while_loop objective near_zero 100 st = Return st' <->
   exists k, (k < 100)%nat /\ st' = after objective k st /\
             loop_condition near_zero st' = false /\
             forall j, (j < k)%nat -> loop_condition near_zero (after objective j st) = true).
Proof.
  intros Hc. pose proof (@while_loop_outcome 100 st) as H.
  assert (H' := H ltac:(lia) ltac:(lia)). clear H. split.
  - intros E. rewrite E in H'. exact H'.
  - intros (k & Hk & Hst & Hfalse & Hbefore).
    destruct (while_loop objective near_zero 100 st) as [st''|e|]; [| |tauto].
    + destruct H' as (k' & Hk' & Hst' & Hfalse' & Hbefore').
      destruct (Nat.lt_trichotomy k k') as [L|[E|L]].
      * subst st'. rewrite (Hbefore' k L) in Hfalse. discriminate.
      * subst. reflexivity.
      * subst st''. rewrite (Hbefore k' L) in Hfalse'. discriminate.
    + destruct H' as [_ Hall]. subst st'.
      rewrite Hall in Hfalse by auto. discriminate.
Qed.

Lemma while_loop_raises (st : Locals) (e : exn) :
  counter st = 0%nat ->
  (while_loop objective near_zero 100 st = Raise e <->
   e = no_profile /\
   forall j, (j < 100)%nat -> loop_condition near_zero (after objective j st) = true).
Proof.
  intros Hc. pose proof (@while_loop_outcome 100 st) as H.
  assert (H' := H ltac:(lia) ltac:(lia)). clear H. split.
  - intros E. rewrite E in H'. exact H'.
  - intros [-> Hall].
    destruct (while_loop objective near_zero 100 st) as [st'|e|]; [| |tauto].
    + destruct H' as (k & Hk & Hst & Hfalse & _). subst st'.
      rewrite Hall in Hfalse by auto. discriminate.
    + destruct H' as [-> _]. reflexivity.
Qed.

(** The state the loop returns carries the last trial, and that trial is
    within tolerance: the bound the last pass did not touch was out of
    tolerance before the pass, so the exit is due to the new value. *)
Lemma while_loop_conserves (st st' : Locals) :
  counter st = 0%nat -> loop_condition near_zero st = true ->
  while_loop objective near_zero 100 st = Return st' ->
  exists x, surfaceT st' = Some x /\ T_con st' = fst (objective x) /\
            np_abs (snd (objective x)) < near_zero.
Proof.
  intros Hc Hentry Hret. apply while_loop_returns in Hret; auto.
  destruct Hret as (k & Hk & Hst & Hfalse & Hbefore).
  destruct k as [|k]; [cbn in Hst; subst st'; congruence|].
  assert (Hprev : loop_condition near_zero (after objective k st) = true) by (apply Hbefore; lia).
  cbn [HardAdjustment.after] in Hst. set (prev := after objective k st) in *.
  destruct (iteration_assigns prev) as (_ & Hs & HT & Hpos & Hneg).
  exists (proposal prev). subst st'. repeat split; auto.
  apply loop_condition_true in Hprev. destruct Hprev as [Hp Hn].
  apply loop_condition_false in Hfalse.
  destruct (Qclt_le_dec 0 (snd (objective (proposal prev)))) as [Hd|Hd].
  - destruct (Hpos Hd) as (_ & Edp & _ & Edn). rewrite Edp, Edn in Hfalse.
    rewrite np_abs_pos by (apply Qclt_le_weak; exact Hd).
    destruct Hfalse as [L|L]; auto.
    exfalso. exact (Qclt_not_le _ _ L Hn).
  - destruct (Hneg Hd) as (_ & Edn & _ & Edp). rewrite Edp, Edn in Hfalse.
    destruct Hfalse as [L|L]; auto.
    exfalso. exact (Qclt_not_le _ _ L Hp).
Qed.

End LoopFacts.

(** ** The bracket of the search *)

Section BracketFacts.
Import HardAdjustment.
Variable objective : Qc -> list Qc * Qc.

Lemma proposal_between (st : Locals) :
  bracketed st -> surfaceTneg st <= proposal st <= surfaceTpos st.
Proof.
  unfold bracketed, proposal.
  destruct st as [a b dn dp Tc s c]; cbn [surfaceTneg surfaceTpos diff_neg diff_pos].
  intros (Hab & Hdn & Hdp). to_Q.
  assert (Hden : (0 < - dn + dp)%Q) by lra.
  assert (H0 : (0 <= - dn * / (- dn + dp))%Q) by (apply Qle_shift_div_l; lra).
  assert (H1 : (- dn * / (- dn + dp) <= 1)%Q) by (apply Qle_shift_div_r; lra).
  set (u := (- dn * / (- dn + dp))%Q) in *.
  setoid_replace ((b + - a) * - dn * / (- dn + dp))%Q with ((b + - a) * u)%Q
    by (unfold u; ring).
  split; nra.
Qed.

Lemma iteration_bracketed (st : Locals) :
  bracketed st -> bracketed (iteration objective st).
Proof.
  intros Hb. pose proof (proposal_between Hb) as [Hlo Hhi].
  destruct Hb as (Hab & Hdn & Hdp).
  destruct (iteration_assigns objective st) as (_ & _ & _ & Hpos & Hneg).
  unfold bracketed.
  destruct (Qclt_le_dec 0 (snd (objective (proposal st)))) as [Hd|Hd].
  - destruct (Hpos Hd) as (-> & -> & -> & ->). auto.
  - destruct (Hneg Hd) as (-> & -> & -> & ->). auto.
Qed.

Lemma after_bracketed (k : nat) (st : Locals) :
  bracketed st -> bracketed (after objective k st).
Proof.
  intros Hb. induction k as [|k IH]; cbn [after]; auto using iteration_bracketed.
Qed.

End BracketFacts.

(** ** From [convective_adjustment] to its loop *)

Section SetupFacts.
Import HardAdjustment.
Variable env : Collaborators.

(** What is known when the search is started. *)
Lemma setup_search (atmosphere atmosphere_old : Atmosphere) (humidity : Humidity)
      (lapse : list Qc) (surface : Surface) (timestep : Qc)
      (lp : list Qc) (near_zero : Qc) (st : Locals) :
  setup env atmosphere atmosphere_old humidity lapse surface timestep
  = Return (Search lp near_zero st) ->
  let trial := fun surfaceT =>
                 create_and_check_profile env atmosphere atmosphere_old humidity
                                          surface surfaceT lp timestep in
  fixed_temperature surface = false /\
  lp = pressure_lapse_rate env (plev atmosphere) (phlev atmosphere)
                           (T atmosphere) lapse /\
  near_zero = heat_capacity surface / ten_to_13 /\
  (exists m, np_min (T atmosphere) = Return m /\
             st = loop_entry surface (fst (trial (temperature surface)))
                             (snd (trial (temperature surface))) m) /\
  loop_condition near_zero st = true.
Proof.
  intros H trial. unfold setup in H.
  destruct (fixed_temperature surface); [discriminate|].
  set (lp0 := pressure_lapse_rate env (plev atmosphere) (phlev atmosphere)
                                  (T atmosphere) lapse) in *.
  destruct (create_and_check_profile env atmosphere atmosphere_old humidity
              surface (temperature surface) lp0 timestep) as [Tc dp] eqn:Eccp.
  destruct (Qc_ltb dp (heat_capacity surface / ten_to_13)) eqn:E1; [discriminate|].
  destruct (np_min (T atmosphere)) as [m| |]; cbn [bind] in H; try discriminate.
  destruct (Qc_ltb (np_abs (diff_neg (loop_entry surface Tc dp m)))
                   (heat_capacity surface / ten_to_13)) eqn:E2; [discriminate|].
  injection H as <- <- <-. subst trial. cbv beta. rewrite Eccp. cbn [fst snd].
  repeat split; auto.
  - exists m; auto.
  - unfold loop_condition, Qc_geb. cbn [diff_pos loop_entry] in *.
    rewrite E1. cbn [diff_neg] in E2. rewrite E2. reflexivity.
Qed.

(** With a positive heat capacity and a coldest level no warmer than the
    surface, the search starts from a bracket. *)
Lemma setup_search_bracketed (atmosphere atmosphere_old : Atmosphere)
      (humidity : Humidity) (lapse : list Qc) (surface : Surface) (timestep : Qc)
      (lp : list Qc) (near_zero : Qc) (st : Locals) :
  setup env atmosphere atmosphere_old humidity lapse surface timestep
  = Return (Search lp near_zero st) ->
  0 < heat_capacity surface ->
  surfaceTneg st <= temperature surface ->
  bracketed st.
Proof.
  intros Hs HC Hmin.
  destruct (setup_search _ _ _ _ _ _ Hs) as (_ & _ & Hnz & (m & _ & Hst) & Hcond).
  apply loop_condition_true in Hcond. destruct Hcond as [Hdp _].
  subst st. cbn [surfaceTneg surfaceTpos diff_neg diff_pos loop_entry] in *.
  assert (Hnzpos : 0 < near_zero).
  { subst near_zero. apply Qc_div_pos; auto using ten_to_13_pos. }
  clear Hs. unfold bracketed, loop_entry.
  cbn [surfaceTneg surfaceTpos diff_neg diff_pos].
  split; [exact Hmin | split].
  - clear Hdp Hnzpos Hnz. to_Q. nra.
  - eapply Qclt_le_trans; eauto.
Qed.

End SetupFacts.

(** ** The solver *)

Section SolverFacts.
Import HardAdjustment.

(** X12.  A pair returned from the search is the last trial, and its
    energy difference is within tolerance. *)
Lemma search_conserves_energy (env : Collaborators)
      (atmosphere atmosphere_old : Atmosphere) (humidity : Humidity)
      (lapse : list Qc) (surface : Surface) (timestep : Qc)
      (lp : list Qc) (near_zero : Qc) (st : Locals)
      (T_adj : list Qc) (T_s : Qc) :
  setup env atmosphere atmosphere_old humidity lapse surface timestep
  = Return (Search lp near_zero st) ->
  convective_adjustment env atmosphere atmosphere_old humidity lapse surface
                        timestep = Return (T_adj, T_s) ->
  let trial := create_and_check_profile env atmosphere atmosphere_old humidity
                                        surface T_s lp timestep in
  T_adj = fst trial /\ np_abs (snd trial) < near_zero.
Proof.
  intros Hs Hret.
  destruct (setup_search _ _ _ _ _ _ _ Hs) as (_ & _ & _ & (m & _ & Hst) & Hcond).
  unfold convective_adjustment in Hret. rewrite Hs in Hret. cbn [bind] in Hret.
  match type of Hret with
  | context [while_loop ?f ?nz 100 st] =>
      destruct (while_loop f nz 100 st) as [st'| |] eqn:Eloop;
        cbn [bind] in Hret; try discriminate
  end.
  assert (Hc : counter st = 0%nat) by (subst st; reflexivity).
  destruct (@while_loop_conserves _ _ _ _ Hc Hcond Eloop) as (x & Hx & HT & Habs).
  rewrite Hx in Hret. injection Hret as <- <-. cbv zeta. auto.
Qed.

(** C1 (fails on the code).  On the inversion column, whose surface is as
    cold as its coldest level, [convective_adjustment] does not take the
    step-1 exit ([diff_pos] is out of tolerance) and returns from the
    lower-bound check that follows it: the pair it returns is the profile
    warmed at the unchanged surface temperature, and its energy difference,
    as [create_and_check_profile] computes it, is not below [near_zero]. *)
Theorem lower_bound_exit_breaks_conservation :
  let surface := Column.slab 250 in
  let near_zero := heat_capacity surface / ten_to_13 in
  let lp := pressure_lapse_rate Column.earth (plev Column.inversion)
              (phlev Column.inversion) (T Column.inversion)
              Column.inversion_lapse in
  let trial := fun surfaceT =>
    create_and_check_profile Column.earth Column.inversion Column.inversion
                             Column.fixed_vmr surface surfaceT lp 1 in
  near_zero <= snd (trial (temperature surface)) /\
  convective_adjustment Column.earth Column.inversion Column.inversion
                        Column.fixed_vmr Column.inversion_lapse surface 1
  = Return (fst (trial (Q2Qc 250)), Q2Qc 250) /\
  near_zero <= np_abs (snd (trial (Q2Qc 250))).
Proof.
  cbv zeta. split; [|split].
  - vm_compute. discriminate.
  - vm_compute. reflexivity.
  - vm_compute. discriminate.
Qed.

(** C4 (fails on the code).  With the contrived height update, the search
    over the humid column lowers its upper bound by half a kelvin at each
    trial and does not converge at its first 99 trials; its hundredth trial
    (255 K) has an energy difference of exactly zero, and
    [convective_adjustment] raises the error of the iteration cap all the
    same: the check [counter == 100] comes before the loop condition is
    looked at again. *)
Theorem cap_discards_converged_hundredth_trial :
  let surface := Column.slab 305 in
  let near_zero := heat_capacity surface / ten_to_13 in
  let lp := pressure_lapse_rate Column.contrived (plev Column.humid)
              (phlev Column.humid) (T Column.humid) Column.isothermal_lapse in
  let trial := fun surfaceT =>
    create_and_check_profile Column.contrived Column.humid Column.dry_before
                             Column.fixed_vmr surface surfaceT lp 1 in
  let st := loop_entry surface (fst (trial (temperature surface)))
                       (snd (trial (temperature surface))) (Q2Qc 250) in
  setup Column.contrived Column.humid Column.dry_before Column.fixed_vmr
        Column.isothermal_lapse surface 1
  = Return (Search lp near_zero st) /\
  (forall j, (j < 100)%nat -> loop_condition near_zero (after trial j st) = true) /\
  np_abs (snd (trial (proposal (after trial 99 st)))) < near_zero /\
  loop_condition near_zero (after trial 100 st) = false /\
  convective_adjustment Column.contrived Column.humid Column.dry_before
                        Column.fixed_vmr Column.isothermal_lapse surface 1
  = Raise no_profile.
Proof.
  cbv zeta. split; [|split; [|split; [|split]]].
  - vm_compute. reflexivity.
  - apply while_loop_raises with (e := no_profile).
    + reflexivity.
    + vm_compute. reflexivity.
  - vm_compute. reflexivity.
  - vm_compute. reflexivity.
  - vm_compute. reflexivity.
Qed.

(** C5 (as worded, fails on the code).  On the dry column the search
    returns after two iterations with [diff_neg = 0] while [diff_pos] is
    still far above [near_zero]: the loop has stopped although only one of
    the two convergence conditions holds. *)
Lemma loop_returns_with_one_bound_out_of_tolerance :
  let surface := Column.slab 305 in
  let near_zero := heat_capacity surface / ten_to_13 in
  let lp := pressure_lapse_rate Column.earth (plev Column.dry)
              (phlev Column.dry) (T Column.dry) Column.isothermal_lapse in
  let trial := fun surfaceT =>
    create_and_check_profile Column.earth Column.dry Column.dry
                             Column.fixed_vmr surface surfaceT lp 1 in
  let st := loop_entry surface (fst (trial (temperature surface)))
                       (snd (trial (temperature surface))) (Q2Qc 250) in
  let st' := after trial 2 st in
  setup Column.earth Column.dry Column.dry Column.fixed_vmr
        Column.isothermal_lapse surface 1
  = Return (Search lp near_zero st) /\
  while_loop trial near_zero 100 st = Return st' /\
  ~ (diff_pos st' < near_zero /\ np_abs (diff_neg st') < near_zero).
Proof.
  cbv zeta. split; [|split].
  - vm_compute. reflexivity.
  - vm_compute. reflexivity.
  - intros [H _]. vm_compute in H. discriminate.
Qed.

(** C5 (amended).  Started from the locals with which the [while]
    statement is reached, the loop returns exactly the first state, reached
    within 99 iterations, at which at least one of [diff_pos < near_zero]
    and [|diff_neg| < near_zero] holds; at every state before it both
    conditions fail. *)
Theorem loop_stops_when_either_bound_is_within_tolerance
        (objective : Qc -> list Qc * Qc) (near_zero : Qc)
        (surface : Surface) (T_con0 : list Qc) (diff_pos0 surfaceTneg0 : Qc)
        (st' : Locals) :
  let st := loop_entry surface T_con0 diff_pos0 surfaceTneg0 in
  while_loop objective near_zero 100 st = Return st' <->
  exists k, (k < 100)%nat /\ st' = after objective k st /\
    (diff_pos st' < near_zero \/ np_abs (diff_neg st') < near_zero) /\
    forall j, (j < k)%nat ->
      near_zero <= diff_pos (after objective j st) /\
      near_zero <= np_abs (diff_neg (after objective j st)).
Proof.
  intros st.
  assert (Hc : counter st = 0%nat) by reflexivity.
  rewrite (@while_loop_returns objective near_zero st st' Hc).
  split; intros (k & Hk & Hst & Hstop & Hbefore); exists k;
    (split; [exact Hk | split; [exact Hst | split]]).
  - apply loop_condition_false. exact Hstop.
  - intros j Hj. apply loop_condition_true. apply Hbefore. exact Hj.
  - apply loop_condition_false. exact Hstop.
  - intros j Hj. apply loop_condition_true. apply Hbefore. exact Hj.
Qed.

(** C6 (fails on the code).  On the moistened column the surface (255 K)
    is colder than the coldest level (260 K), and the code takes
    [np.min(T_rad)] for its lower bound without comparing the two: the
    search starts with [surfaceTneg > surfaceTpos] and [diff_neg > 0], its
    first trial lies below both bounds, and so neither
    [surfaceTneg <= surfaceT <= surfaceTpos] nor [diff_neg <= 0 <= diff_pos]
    holds at the first iteration. *)
Lemma search_starts_outside_bracket :
  let surface := Column.slab 255 in
  let near_zero := heat_capacity surface / ten_to_13 in
  let lp := pressure_lapse_rate Column.earth (plev Column.moist)
              (phlev Column.moist) (T Column.moist) Column.moist_lapse in
  let trial := fun surfaceT =>
    create_and_check_profile Column.earth Column.moist Column.moist_before
                             Column.fixed_vmr surface surfaceT lp 1 in
  let st := loop_entry surface (fst (trial (temperature surface)))
                       (snd (trial (temperature surface))) (Q2Qc 260) in
  setup Column.earth Column.moist Column.moist_before Column.fixed_vmr
        Column.moist_lapse surface 1
  = Return (Search lp near_zero st) /\
  surfaceTpos st < surfaceTneg st /\
  0 < diff_neg st /\
  proposal st < surfaceTpos st /\
  ~ (surfaceTneg st <= proposal st <= surfaceTpos st) /\
  ~ (diff_neg st <= 0 <= diff_pos st) /\
  ~ (surfaceTneg st <= proposal st <= surfaceTpos st /\
     diff_neg st <= 0 <= diff_pos st).
Proof.
  cbv zeta. split; [|split; [|split; [|split; [|split; [|split]]]]].
  - vm_compute. reflexivity.
  - vm_compute. reflexivity.
  - vm_compute. reflexivity.
  - vm_compute. reflexivity.
  - intros [H _]. vm_compute in H. apply H. reflexivity.
  - intros [H _]. vm_compute in H. apply H. reflexivity.
  - intros [[H _] _]. vm_compute in H. apply H. reflexivity.
Qed.

(** X24.  When the surface heat capacity is positive and the
    coldest level of the radiative profile is no warmer than the surface,
    then after any number of iterations of the search the trial surface
    temperature lies between the bounds, [diff_neg <= 0 <= diff_pos], and
    the pass replaces the upper bound by the trial when its energy
    difference is positive and the lower bound otherwise, leaving the other
    bound as it was. *)
Theorem bracket_kept_when_surface_is_not_colder
        (env : Collaborators) (atmosphere atmosphere_old : Atmosphere)
        (humidity : Humidity) (lapse : list Qc) (surface : Surface)
        (timestep : Qc) (lp : list Qc) (near_zero : Qc) (st0 : Locals) (k : nat) :
  setup env atmosphere atmosphere_old humidity lapse surface timestep
  = Return (Search lp near_zero st0) ->
  0 < heat_capacity surface ->
  surfaceTneg st0 <= temperature surface ->
  let trial := fun surfaceT =>
                 create_and_check_profile env atmosphere atmosphere_old humidity
                                          surface surfaceT lp timestep in
  let st := after trial k st0 in
  let x := proposal st in
  let d := snd (trial x) in
  let st' := iteration trial st in
  (surfaceTneg st <= x <= surfaceTpos st) /\
  (diff_neg st <= 0 <= diff_pos st) /\
  (0 < d ->
   surfaceTpos st' = x /\ diff_pos st' = d /\
   surfaceTneg st' = surfaceTneg st /\ diff_neg st' = diff_neg st) /\
  (d <= 0 ->
   surfaceTneg st' = x /\ diff_neg st' = d /\
   surfaceTpos st' = surfaceTpos st /\ diff_pos st' = diff_pos st).
Proof.
  intros Hs HC Hmin trial st x d st'.
  assert (Hb0 : bracketed st0) by (eapply setup_search_bracketed; eauto).
  assert (Hb : bracketed st) by (apply after_bracketed; exact Hb0).
  split; [exact (proposal_between Hb)|].
  split.
  - destruct Hb as (_ & Hdn & Hdp). split; auto using Qclt_le_weak.
  - destruct (iteration_assigns trial st) as (_ & _ & _ & Hpos & Hneg).
    split; assumption.
Qed.

Lemma bracket_kept_when_surface_is_not_colder_witness :
  let surface := Column.slab 305 in
  let near_zero := heat_capacity surface / ten_to_13 in
  let lp := pressure_lapse_rate Column.earth (plev Column.dry)
              (phlev Column.dry) (T Column.dry) Column.isothermal_lapse in
  let trial := fun surfaceT =>
    create_and_check_profile Column.earth Column.dry Column.dry
                             Column.fixed_vmr surface surfaceT lp 1 in
  let st0 := loop_entry surface (fst (trial (temperature surface)))
                        (snd (trial (temperature surface))) (Q2Qc 250) in
  let st := after trial 1 st0 in
  surfaceTneg st <= proposal st <= surfaceTpos st.
Proof.
  cbv zeta.
  refine (proj1 (@bracket_kept_when_surface_is_not_colder
                   Column.earth Column.dry Column.dry Column.fixed_vmr
                   Column.isothermal_lapse (Column.slab 305) 1 _ _ _ 1%nat
                   _ _ _)).
  - vm_compute. reflexivity.
  - reflexivity.
  - vm_compute. discriminate.
Defined.

End SolverFacts.

(** ** The energy evaluator *)

Section EnergyFacts.
Import HardAdjustment.
Variable env : Collaborators.

Lemma fold_left_Qcplus (a : list Qc) (acc : Qc) :
  fold_left Qcplus a acc = acc + fold_left Qcplus a 0.
Proof.
  revert acc. induction a as [|x a IH]; intros acc; cbn [fold_left].
  - ring.
  - rewrite (IH (acc + x)), (IH (0 + x)). ring.
Qed.

Lemma np_sum_cons (x : Qc) (a : list Qc) : np_sum (x :: a) = x + np_sum a.
Proof.
  unfold np_sum. cbn [fold_left zero add Qc_Num].
  rewrite fold_left_Qcplus. ring.
Qed.

(** The latent difference between two profiles is the sum of the
    differences through a third one of the same shape. *)
Lemma latent_heat_difference_through (h2o_2 h2o_m h2o_1 : list Qc) :
  length h2o_2 = length h2o_m -> length h2o_1 = length h2o_m ->
  latent_heat_difference env h2o_2 h2o_1
  = latent_heat_difference env h2o_2 h2o_m
    + latent_heat_difference env h2o_m h2o_1.
Proof.
  unfold latent_heat_difference. cbv zeta.
  revert h2o_m h2o_1.
  induction h2o_2 as [|x a IH]; intros [|y b] [|w c] H1 H2;
    try discriminate; cbn [zipWith map].
  - unfold np_sum. cbn. ring.
  - rewrite !np_sum_cons. rewrite (IH b c) by (cbn in *; congruence). ring.
Qed.

(** C8 (as worded, fails on the code).  On the moistened column the
    difference [create_and_check_profile] returns is not the one the
    specification describes, whose latent term is taken against the
    radiative state: the candidate equals the radiative state here, so the
    latter is zero, while the code reports the latent heat of the
    moistening since the previous timestep. *)
Lemma latent_reference_is_not_radiative_state :
  let surface := Column.slab 255 in
  let lp := pressure_lapse_rate Column.earth (plev Column.moist)
              (phlev Column.moist) (T Column.moist) Column.moist_lapse in
  spec_energy_difference Column.earth Column.moist Column.fixed_vmr surface
                         (Q2Qc 255) lp = 0 /\
  snd (create_and_check_profile Column.earth Column.moist Column.moist_before
                                Column.fixed_vmr surface (Q2Qc 255) lp 1)
  <> spec_energy_difference Column.earth Column.moist Column.fixed_vmr surface
                            (Q2Qc 255) lp.
Proof.
  cbv zeta. split.
  - apply Qc_is_canon. vm_compute. reflexivity.
  - intros E. apply (f_equal this) in E. vm_compute in E. discriminate.
Qed.

(** C8 (amended).  The dry term of the difference returned by
    [create_and_check_profile] compares the candidate with the radiative
    state [atmosphere], and its latent term compares the water vapour of the
    candidate with that of [atmosphere_old], the state of the previous
    timestep; on profiles of one shape the returned difference therefore
    exceeds the specification's by the latent heat difference between
    [atmosphere] and [atmosphere_old]. *)
Theorem latent_reference_is_previous_timestep
        (atmosphere atmosphere_old : Atmosphere) (humidity : Humidity)
        (surface : Surface) (surfaceT : Qc) (lp : list Qc) (timestep : Qc) :
  let T_con := convective_profile (T atmosphere) (plev atmosphere)
                                  (phlev atmosphere) surfaceT lp in
  let candidate := update_temporary_atmosphere env atmosphere T_con humidity in
  let diff := snd (create_and_check_profile env atmosphere atmosphere_old
                                            humidity surface surfaceT lp timestep) in
  length (water_vapour_profile env candidate)
  = length (water_vapour_profile env atmosphere) ->
  length (water_vapour_profile env atmosphere_old)
  = length (water_vapour_profile env atmosphere) ->
  diff = energy_difference_dry env T_con (T atmosphere) surfaceT
                               (temperature surface) (phlev atmosphere)
                               (get_heat_capacity env atmosphere)
                               (heat_capacity surface)
         + latent_heat_difference env (water_vapour_profile env candidate)
                                  (water_vapour_profile env atmosphere_old)
  /\
  diff = spec_energy_difference env atmosphere humidity surface surfaceT lp
         + latent_heat_difference env (water_vapour_profile env atmosphere)
                                  (water_vapour_profile env atmosphere_old).
Proof.
  intros T_con candidate diff H1 H2. subst diff.
  unfold create_and_check_profile, spec_energy_difference. cbn [snd].
  fold T_con. fold candidate. split; [reflexivity|].
  rewrite (latent_heat_difference_through _ _ _ H1 H2). ring.
Qed.

End EnergyFacts.

Lemma latent_reference_is_previous_timestep_witness :
  let lp := pressure_lapse_rate Column.earth (plev Column.moist)
              (phlev Column.moist) (T Column.moist) Column.moist_lapse in
  snd (HardAdjustment.create_and_check_profile
         Column.earth Column.moist Column.moist_before Column.fixed_vmr
         (Column.slab 255) (Q2Qc 255) lp 1)
  = spec_energy_difference Column.earth Column.moist Column.fixed_vmr
                           (Column.slab 255) (Q2Qc 255) lp
    + latent_heat_difference Column.earth
        (water_vapour_profile Column.earth Column.moist)
        (water_vapour_profile Column.earth Column.moist_before).
Proof.
  cbv zeta.
  refine (proj2 (@latent_reference_is_previous_timestep
                   Column.earth Column.moist Column.moist_before
                   Column.fixed_vmr (Column.slab 255) (Q2Qc 255) _ 1 _ _)).
  - reflexivity.
  - reflexivity.
Defined.

(** ** The convective-top diagnostics *)

Section DiagnosticsFacts.
Import HardAdjustment.

Lemma first_true_none (i : nat) (mask : list bool) :
  (forall b, In b mask -> b = false) -> first_true i mask = 0%nat.
Proof.
  revert i. induction mask as [|b m IH]; intros i Hall; cbn [first_true]; auto.
  rewrite (Hall b) by (left; reflexivity). apply IH.
  intros b' Hb'. apply Hall. right. exact Hb'.
Qed.

Lemma nth_last_item (a : list Qc) (d : Qc) :
  nth (length a - 1) a d = last a d.
Proof.
  induction a as [|x a IH]; [reflexivity|].
  destruct a as [|y a]; [reflexivity|].
  cbn [length last] in *. rewrite <- IH.
  replace (S (S (length a)) - 1)%nat with (S (S (length a) - 1)) by lia.
  reflexivity.
Qed.

(** [a[-1]] is the last element and [a[0]] the first. *)
Lemma getitem_wraps (a : list Qc) :
  a <> [] ->
  getitem a (Z.of_nat 0 - 1) = Return (last a 0) /\
  getitem a (Z.of_nat 0) = Return (hd 0 a).
Proof.
  intros Hne. destruct a as [|x a]; [congruence|].
  unfold getitem. set (n := length (x :: a)).
  assert (Hn : (1 <= n)%nat) by (subst n; cbn; lia).
  split.
  - replace ((0 <=? Z.of_nat 0 - 1)%Z) with false by (symmetry; apply Z.leb_gt; lia).
    cbn [andb].
    replace ((- Z.of_nat n <=? Z.of_nat 0 - 1)%Z) with true
      by (symmetry; apply Z.leb_le; lia).
    replace ((Z.of_nat 0 - 1 <? 0)%Z) with true by (symmetry; apply Z.ltb_lt; lia).
    cbn [andb].
    replace (Z.to_nat (Z.of_nat n + (Z.of_nat 0 - 1))) with (n - 1)%nat by lia.
    subst n. rewrite nth_last_item. reflexivity.
  - replace ((0 <=? Z.of_nat 0)%Z) with true by reflexivity.
    replace ((Z.of_nat 0 <? Z.of_nat n)%Z) with true by (symmetry; apply Z.ltb_lt; lia).
    reflexivity.
Qed.

(** Two nodes that both lie above the query: the range check fails. *)
Lemma interp1d_below (x0 x1 y0 y1 lim : Qc) :
  lim < x0 -> lim < x1 -> interp1d [x0; x1] [y0; y1] lim = Raise below_range.
Proof.
  intros H0 H1. unfold interp1d, sort_nodes.
  cbn [combine fold_right insert_node fst].
  destruct (Qc_leb x0 x1); cbn [segment hd fst].
  - rewrite (proj2 (Qc_ltb_lt lim x0) H0). reflexivity.
  - rewrite (proj2 (Qc_ltb_lt lim x1) H1). reflexivity.
Qed.

Lemma interp_variable_below (variable heating : list Qc) (lim : Qc) :
  length variable = length heating -> heating <> [] ->
  lim < hd 0 heating ->
  (forall h, In h heating -> lim <= h) ->
  lim < last heating 0 ->
  interp_variable variable heating lim = Raise below_range.
Proof.
  intros Hlen Hne Hhd Hall Hlast.
  assert (Hvne : variable <> []).
  { destruct variable; [destruct heating; [congruence | discriminate] | congruence]. }
  unfold interp_variable.
  assert (Hpos : np_argmax (map (fun h => gtb h lim) heating) = Return 0%nat).
  { clear - Hne Hhd. destruct heating as [|h0 t]; [congruence|].
    cbn [hd] in Hhd. cbn [map np_argmax first_true]. unfold gtb. cbn [ltb Qc_Num].
    rewrite (proj2 (Qc_ltb_lt lim h0) Hhd). reflexivity. }
  rewrite Hpos. cbn [bind skipn].
  assert (Htop : np_argmax (map (fun h => Qc_ltb h lim) heating) = Return 0%nat).
  { assert (Hnone : first_true 0 (map (fun h => Qc_ltb h lim) heating) = 0%nat).
    { apply first_true_none. intros b Hb. apply in_map_iff in Hb.
      destruct Hb as (h & <- & Hin). apply Qc_ltb_ge. apply Hall. exact Hin. }
    clear - Hne Hnone. destruct heating as [|h0 t]; [congruence|].
    cbn [map np_argmax] in *. rewrite Hnone. reflexivity. }
  rewrite Htop. cbn [bind Nat.add].
  destruct (getitem_wraps Hne) as [E1 E0].
  destruct (getitem_wraps Hvne) as [V1 V0].
  rewrite E1, E0, V1, V0. cbn [bind].
  apply interp1d_below; auto.
Qed.

(** C9.  For two profiles of one length and a non-zero timestep: when the
    convective heating rate [(T_con - T_rad) / timestep] exceeds the
    threshold at no level, [update_convective_top] returns normally and has
    set the three convective-top diagnostics (pressure, temperature, index)
    to the undefined sentinel [nan], next to the heating rate itself. *)
Theorem no_heating_gives_undefined_top
        (self : Variables) (T_rad T_con p : list Qc) (timestep lim : Qc) :
  let convective_heating :=
    map (fun d => d / timestep) (zipWith Qcminus T_con T_rad) in
  timestep <> 0 -> length T_con = length T_rad ->
  (forall i, (i < length convective_heating)%nat ->
             nth i convective_heating 0 <= lim) ->
  exists self',
    update_convective_top self T_rad T_con p timestep lim = Return self' /\
    self' "convective_top_plev"%string = Some [nan] /\
    self' "convective_top_temperature"%string = Some [nan] /\
    self' "convective_top_index"%string = Some [nan] /\
    self' "convective_heating_rate"%string = Some (map finite convective_heating).
Proof.
  intros heating _ _ Hnone. unfold update_convective_top. fold heating.
  assert (Hany : np_any (map (fun h => gtb h lim) heating) = false).
  { apply np_any_false. intros i Hi. rewrite length_map in Hi.
    rewrite (nth_indep _ false (gtb 0 lim)) by (rewrite length_map; exact Hi).
    rewrite (map_nth (fun h => gtb h lim)). unfold gtb. cbn [ltb Qc_Num].
    apply Qc_ltb_ge. apply Hnone. exact Hi. }
  rewrite Hany. cbn [bind fold_left]. eexists. split; [reflexivity|].
  repeat split; reflexivity.
Qed.

Lemma no_heating_gives_undefined_top_witness :
  exists self',
    update_convective_top (fun _ => None) (Column.arr [300; 250]%Q)
                          (Column.arr [300; 250]%Q) (Column.arr [90000; 50000]%Q)
                          (Q2Qc 0.1) (Q2Qc 0.2) = Return self' /\
    self' "convective_top_plev"%string = Some [nan] /\
    self' "convective_top_temperature"%string = Some [nan] /\
    self' "convective_top_index"%string = Some [nan] /\
    self' "convective_heating_rate"%string
    = Some (map finite (map (fun d => d / Q2Qc 0.1)
                            (zipWith Qcminus (Column.arr [300; 250]%Q)
                                     (Column.arr [300; 250]%Q)))).
Proof.
  apply (@no_heating_gives_undefined_top (fun _ => None)
           (Column.arr [300; 250]%Q) (Column.arr [300; 250]%Q)
           (Column.arr [90000; 50000]%Q) (Q2Qc 0.1) (Q2Qc 0.2)).
  1: Qc_discriminate.
  1: reflexivity.
  intros [|[|i]] Hi.
  - vm_compute. discriminate.
  - vm_compute. discriminate.
  - cbn in Hi. lia.
Defined.

(** C10 (as worded, fails on the code).  The heating [[0.1; 0.5]] exceeds
    the threshold 0.2 first at index 1 and does not fall below it from there
    on, yet the pair [interp_variable] interpolates between,
    [(heating[0], heating[1])], does straddle the threshold: the
    interpolation succeeds (800 hPa for the pressure) and the diagnostics
    are defined. *)
Lemma rising_crossing_is_straddled :
  let heating := Column.arr [0.1; 0.5]%Q in
  let p := Column.arr [90000; 50000]%Q in
  let lim := Q2Qc 0.2 in
  np_any (map (fun h => gtb h lim) heating) = true /\
  np_argmax (map (fun h => gtb h lim) heating) = Return 1%nat /\
  (forall h, In h (skipn 1 heating) -> lim <= h) /\
  (exists h_lo h_hi,
      getitem heating (Z.of_nat 1 - 1) = Return h_lo /\
      getitem heating (Z.of_nat 1) = Return h_hi /\
      h_lo <= lim <= h_hi) /\
  interp_variable p heating lim = Return (Q2Qc 80000).
Proof.
  cbv zeta. split; [|split; [|split; [|split]]].
  - reflexivity.
  - reflexivity.
  - intros h [<-|[]]. vm_compute. discriminate.
  - exists (Q2Qc 0.1), (Q2Qc 0.5). split; [|split; [|split]].
    + vm_compute. reflexivity.
    + vm_compute. reflexivity.
    + vm_compute. discriminate.
    + vm_compute. discriminate.
  - vm_compute. reflexivity.
Qed.

(** C2 (fails on the code).  Whatever it is given, [stabilize] raises
    [NameError]: it reads [T_old], a name bound neither in its body nor at
    the top level of the module, before [convective_adjustment] is called;
    nothing is written to the atmosphere or to the surface.  The call it
    attempts is ill-formed as well: [convective_adjustment] declares no
    parameter [T_old]. *)
Theorem stabilize_raises_NameError
        (env : Collaborators) (self : Variables)
        (atmosphere atmosphere_old : Atmosphere) (humidity : Humidity)
        (lapse : list Qc) (surface : Surface) (timestep : Qc) :
  load_global "T_old" = Raise (NameError "T_old") /\
  (exists e, check_keywords convective_adjustment_parameters
                            ["lapse"; "surface"; "T_old"; "timestep"]%string
             = Raise (TypeError e)) /\
  stabilize env self atmosphere atmosphere_old humidity lapse surface timestep
  = Raise (NameError "T_old").
Proof.
  split; [reflexivity|]. split.
  - eexists. reflexivity.
  - unfold stabilize.
    replace (load_global "T_old") with (@Raise unit (NameError "T_old"))
      by reflexivity.
    reflexivity.
Qed.

End DiagnosticsFacts.

(** A three-level column: the candidate [[300; 260; 180]] exceeds the
    radiative profile [[300; 250; 220]] at index 1 only. *)
Lemma convective_profile_cases_witness :
  let T_rad := Column.arr [300; 250; 220]%Q in
  let p := Column.arr [90000; 50000; 10000]%Q in
  let phlev := Column.arr [100000; 70000; 30000; 5000]%Q in
  let lp := Column.arr [-0.0005; -0.001; -0.002]%Q in
  let candidate := lapse_rate_candidate p phlev (Q2Qc 305) lp in
  let T_con := HardAdjustment.convective_profile T_rad p phlev (Q2Qc 305) lp in
  length T_con = length T_rad /\
  forall i, (i < length T_rad)%nat ->
    nth i T_con zero =
    if (i <=? 1)%nat then nth i candidate zero else nth i T_rad zero.
Proof.
  cbv zeta.
  refine (proj2 (@convective_profile_cases Qc Qc_Num
                   (Column.arr [300; 250; 220]%Q)
                   (Column.arr [90000; 50000; 10000]%Q)
                   (Column.arr [100000; 70000; 30000; 5000]%Q)
                   (Column.arr [-0.0005; -0.001; -0.002]%Q) (Q2Qc 305)
                   eq_refl eq_refl) 1%nat _ _ _).
  - cbn. lia.
  - vm_compute. reflexivity.
  - intros j Hj. cbn in Hj. assert (j = 2%nat) by lia. subst j.
    vm_compute. reflexivity.
Defined.

(** ** The relaxed scheme in the limit of a long timestep *)

Section RelaxedFacts.
Local Open Scope R_scope.

Lemma R_ltb_lt (x y : R) : R_ltb x y = true <-> x < y.
Proof.
  unfold R_ltb. destruct (Rlt_dec x y); split; auto; discriminate.
Qed.

(** The gap between the blend and the candidate is the gap between the
    radiative value and the candidate, damped by [exp (- timestep / tau)]. *)
Lemma blend_gap (t c r : R) :
  t * (1 - (1 - exp (- r))) + (1 - exp (- r)) * c - c = (t - c) * exp (- r).
Proof. ring. Qed.

Lemma blend_close (t c r eps B : R) :
  0 < eps -> 0 <= B -> Rabs (t - c) <= B -> B / eps < r ->
  Rabs (t * (1 - (1 - exp (- r))) + (1 - exp (- r)) * c - c) < eps.
Proof.
  intros Heps HB Hgap Hr.
  rewrite blend_gap, Rabs_mult.
  assert (Hr0 : 0 < r).
  { apply Rle_lt_trans with (B / eps); auto.
    unfold Rdiv. apply Rmult_le_pos; auto.
    apply Rlt_le. apply Rinv_0_lt_compat. exact Heps. }
  assert (HBr : B < eps * r).
  { apply (Rmult_lt_compat_l eps) in Hr; auto.
    replace (eps * (B / eps)) with B in Hr by (field; lra). exact Hr. }
  pose proof (exp_ineq1_le r) as Hexp.
  pose proof (exp_pos r) as Hpos.
  rewrite exp_Ropp. rewrite (Rabs_pos_eq (/ exp r))
    by (apply Rlt_le; apply Rinv_0_lt_compat; exact Hpos).
  apply Rle_lt_trans with (B * / exp r).
  - apply Rmult_le_compat_r; auto.
    apply Rlt_le. apply Rinv_0_lt_compat. exact Hpos.
  - apply (Rmult_lt_reg_r (exp r)); auto.
    replace (B * / exp r * exp r) with B by (field; lra).
    nra.
Qed.

Lemma exists_bound (l : list R) :
  exists B, 0 <= B /\ forall i, (i < length l)%nat -> Rabs (nth i l 0) <= B.
Proof.
  induction l as [|x l (B & HB & Hall)].
  - exists 0. split; [lra|]. intros i Hi. cbn in Hi. lia.
  - exists (B + Rabs x). pose proof (Rabs_pos x) as Hx. split; [lra|].
    intros [|i] Hi; cbn [nth].
    + lra.
    + cbn in Hi. specialize (Hall i ltac:(lia)). lra.
Qed.

(** The value of the relaxed profile at a level. *)
Lemma relaxed_profile_nth (convective_tau : option (list R))
      (T_rad p phlev : list R) (surfaceT : R) (lp : list R) (timestep : R)
      (T_old : list R) (i : nat) :
  let tau := RelaxedAdjustment.get_convective_tau convective_tau p in
  let candidate := lapse_rate_candidate p phlev surfaceT lp in
  length tau = length T_rad -> length candidate = length T_rad ->
  (i < length T_rad)%nat ->
  nth i (RelaxedAdjustment.convective_profile convective_tau T_rad p phlev
           surfaceT lp timestep T_old) 0
  = nth i T_rad 0 * (1 - (1 - exp (- (timestep / nth i tau 0))))
    + (1 - exp (- (timestep / nth i tau 0))) * nth i candidate 0.
Proof.
  intros tau candidate Htau Hcand Hi.
  unfold RelaxedAdjustment.convective_profile. fold tau. fold candidate.
  set (tf := map (fun tau_i => 1 - exp (- timestep / tau_i)) tau).
  assert (Htf : length tf = length T_rad) by (unfold tf; rewrite length_map; auto).
  assert (Htfi : nth i tf 0 = 1 - exp (- (timestep / nth i tau 0))).
  { unfold tf.
    rewrite (nth_indep (map (fun tau_i => 1 - exp (- timestep / tau_i)) tau) 0
                       ((fun tau_i => 1 - exp (- timestep / tau_i)) 0))
      by (rewrite length_map; lia).
    rewrite (map_nth (fun tau_i => 1 - exp (- timestep / tau_i))).
    f_equal. f_equal. unfold Rdiv. ring. }
  rewrite (zipWith_nth Rplus _ _ 0 0 0).
  - rewrite (zipWith_nth Rmult T_rad _ 0 0 0) by (rewrite ?length_map; lia).
    rewrite (zipWith_nth Rmult tf candidate 0 0 0) by lia.
    rewrite (nth_indep (map (fun tf_i => 1 - tf_i) tf) 0 ((fun tf_i => 1 - tf_i) 0))
      by (rewrite length_map; lia).
    rewrite (map_nth (fun tf_i => 1 - tf_i)). rewrite Htfi. reflexivity.
  - rewrite zipWith_length, length_map. lia.
  - rewrite zipWith_length. lia.
Qed.

(** The relaxed profile tends to the lapse-rate candidate. *)
Lemma relaxed_converges_to_candidate
      (T_rad p phlev : list R) (surfaceT : R) (lp : list R) :
  length p = length T_rad -> length lp = length T_rad ->
  relaxed_converges_to T_rad p phlev surfaceT lp
                       (lapse_rate_candidate p phlev surfaceT lp).
Proof.
  intros Hp Hlp eps Heps.
  set (candidate := lapse_rate_candidate p phlev surfaceT lp).
  assert (Hc : length candidate = length T_rad)
    by (apply lapse_rate_candidate_length; auto).
  destruct (exists_bound (zipWith Rminus T_rad candidate)) as (B & HB & Hgap).
  exists (B / eps). intros timestep convective_tau T_old tau Htau Hratio i Hi.
  rewrite relaxed_profile_nth by auto. fold tau. fold candidate.
  apply blend_close with (B := B); auto.
  - specialize (Hgap i). rewrite zipWith_length in Hgap.
    rewrite (zipWith_nth Rminus T_rad candidate 0 0 0) in Hgap by lia.
    apply Hgap. lia.
  - apply Hratio. lia.
Qed.

(** When the candidate exceeds the radiative profile at the top level,
    the hard scheme clips nothing. *)
Lemma hard_profile_unclipped (T_rad p phlev : list R) (surfaceT : R) (lp : list R) :
  length p = length T_rad -> length lp = length T_rad ->
  let candidate := lapse_rate_candidate p phlev surfaceT lp in
  gtb (last candidate 0) (last T_rad 0) = true -> T_rad <> [] ->
  HardAdjustment.convective_profile T_rad p phlev surfaceT lp = candidate.
Proof.
  intros Hp Hlp candidate Htop Hne.
  assert (Hc : length candidate = length T_rad)
    by (apply lapse_rate_candidate_length; auto).
  assert (Hn : (0 < length T_rad)%nat)
    by (destruct T_rad; [congruence | cbn; lia]).
  set (mask := zipWith gtb candidate T_rad).
  assert (Hmlen : length mask = length T_rad)
    by (unfold mask; rewrite zipWith_length; lia).
  assert (Hlast : forall (l : list R), nth (length l - 1) l 0 = last l 0).
  { induction l as [|x l IH]; [reflexivity|].
    destruct l as [|y l]; [reflexivity|].
    cbn [length last] in *. rewrite <- IH.
    replace (S (S (length l)) - 1)%nat with (S (S (length l) - 1)) by lia.
    reflexivity. }
  assert (Hmtop : nth (length T_rad - 1) mask false = true).
  { unfold mask. rewrite (zipWith_nth gtb candidate T_rad 0 0 false) by lia.
    rewrite <- Hc at 1. rewrite !Hlast. exact Htop. }
  assert (Hany : np_any mask = true).
  { destruct (np_any mask) eqn:E; auto. rewrite np_any_false in E.
    rewrite E in Hmtop by lia. discriminate. }
  assert (Hmax : np_max (np_where mask) = (length T_rad - 1)%nat).
  { apply np_max_where_top; auto; try lia. }
  unfold HardAdjustment.convective_profile. fold candidate. fold mask.
  rewrite Hany, Hmax.
  rewrite firstn_all2 by lia. rewrite skipn_all2 by lia. apply app_nil_r.
Qed.

(** C7 (as worded, fails on the code).  For a one-level column whose
    candidate (290 K) is colder than the radiative value (300 K) the hard
    scheme returns the radiative profile, while the relaxed profile
    [300 - 10 * tf] moves away from it towards 290 K as [timestep / tau]
    grows: it does not converge to the hard scheme's profile. *)
Lemma relaxed_limit_is_not_the_hard_profile :
  HardAdjustment.convective_profile [300] [90000] [100000; 80000] 290 [0] = [300]
  /\
  ~ relaxed_converges_to [300] [90000] [100000; 80000] 290 [0]
      (HardAdjustment.convective_profile [300] [90000] [100000; 80000] 290 [0]).
Proof.
  assert (Hhard : HardAdjustment.convective_profile
                    [300] [90000] [100000; 80000] 290 [0] = [300]).
  { unfold HardAdjustment.convective_profile, lapse_rate_candidate, dp_lapse,
      item0, np_cumsum, np_any, gtb.
    cbn [zipWith map hd np_diff cumsum_from existsb ltb sub mul R_Num orb].
    replace (R_ltb 300 (290 - (90000 - 100000) * 0)) with false; [reflexivity|].
    symmetry. destruct (R_ltb 300 (290 - (90000 - 100000) * 0)) eqn:E; auto.
    apply R_ltb_lt in E. lra. }
  split; [exact Hhard|]. rewrite Hhard. intros Hconv.
  destruct (Hconv 1 ltac:(lra)) as (M & HM).
  set (r := Rmax M 1 + 1).
  assert (HrM : M < r) by (unfold r; pose proof (Rmax_l M 1); lra).
  assert (Hr1 : 1 <= r) by (unfold r; pose proof (Rmax_r M 1); lra).
  specialize (HM r (Some [1]) [] eq_refl).
  assert (Hratio : forall i, (i < length [1])%nat -> M < r / nth i [1] 0).
  { intros [|i] Hi; cbn in Hi; [|lia]. cbn [nth].
    replace (r / 1) with r by field. exact HrM. }
  specialize (HM Hratio 0%nat ltac:(cbn; lia)).
  rewrite relaxed_profile_nth in HM; try reflexivity; [|cbn; lia].
  cbn [RelaxedAdjustment.get_convective_tau nth] in HM.
  unfold lapse_rate_candidate, dp_lapse, item0, np_cumsum in HM.
  cbn [zipWith map hd np_diff cumsum_from nth sub mul R_Num] in HM.
  replace (r / 1) with r in HM by field.
  replace (300 * (1 - (1 - exp (- r)))
           + (1 - exp (- r)) * (290 - (90000 - 100000) * 0) - 300)
    with (- (10 * (1 - exp (- r)))) in HM by ring.
  rewrite Rabs_Ropp in HM.
  pose proof (exp_ineq1_le r) as Hexp. pose proof (exp_pos r) as Hpos.
  assert (Hsmall : exp (- r) <= / 2).
  { rewrite exp_Ropp. apply Rinv_le_contravar; lra. }
  rewrite Rabs_pos_eq in HM by lra. lra.
Qed.

(** C7 (amended).  On a grid whose arrays have the length of [T_rad], the
    profile of the relaxed scheme converges, as [timestep / tau] grows at
    every level, to the unclipped lapse-rate candidate
    [surfaceT - cumsum(dp * lp)]; this is the profile the hard scheme
    returns when the candidate exceeds the radiative profile at the top
    level, and then the relaxed profile converges to the hard one. *)
Theorem relaxed_converges_to_unclipped_candidate
        (T_rad p phlev : list R) (surfaceT : R) (lp : list R) :
  length p = length T_rad -> length lp = length T_rad ->
  let candidate := lapse_rate_candidate p phlev surfaceT lp in
  relaxed_converges_to T_rad p phlev surfaceT lp candidate /\
  (T_rad <> [] -> last T_rad 0 < last candidate 0 ->
   relaxed_converges_to T_rad p phlev surfaceT lp
     (HardAdjustment.convective_profile T_rad p phlev surfaceT lp)).
Proof.
  intros Hp Hlp candidate. split.
  - apply relaxed_converges_to_candidate; auto.
  - intros Hne Htop.
    rewrite hard_profile_unclipped; auto.
    + apply relaxed_converges_to_candidate; auto.
    + apply R_ltb_lt. exact Htop.
Qed.

Lemma relaxed_converges_to_unclipped_candidate_witness :
  relaxed_converges_to [300] [90000] [100000; 80000] 290 [0]
                       (lapse_rate_candidate [90000] [100000; 80000] 290 [0]).
Proof.
  exact (proj1 (@relaxed_converges_to_unclipped_candidate
                  [300] [90000] [100000; 80000] 290 [0] eq_refl eq_refl)).
Defined.

End RelaxedFacts.

(** ** Laws of the two energy differences *)

Section EnergyLaws.
Variable env : Collaborators.

Lemma np_sum_nil : np_sum (@nil Qc) = 0.
Proof. reflexivity. Qed.

(** The layer sum of the dry term, through an intermediate profile. *)
Lemma layer_sum_through (a b T_3 T_2 T_1 : list Qc) :
  length T_3 = length T_2 -> length T_1 = length T_2 ->
  np_sum (zipWith Qcmult (zipWith Qcmult a (zipWith Qcminus T_3 T_1)) b)
  = np_sum (zipWith Qcmult (zipWith Qcmult a (zipWith Qcminus T_3 T_2)) b)
    + np_sum (zipWith Qcmult (zipWith Qcmult a (zipWith Qcminus T_2 T_1)) b).
Proof.
  revert a b T_2 T_1.
  induction T_3 as [|x3 T_3 IH]; intros a b [|x2 T_2] [|x1 T_1] H32 H12;
    try discriminate.
  - destruct a; cbn [zipWith]; rewrite np_sum_nil; ring.
  - destruct a as [|w a]; [cbn [zipWith]; rewrite np_sum_nil; ring|].
    destruct b as [|d b]; [cbn [zipWith]; rewrite np_sum_nil; ring|].
    cbn [zipWith]. rewrite !np_sum_cons.
    rewrite (IH a b T_2 T_1) by (cbn in *; congruence). ring.
Qed.

Lemma layer_sum_same (a b T : list Qc) :
  np_sum (zipWith Qcmult (zipWith Qcmult a (zipWith Qcminus T T)) b) = 0.
Proof.
  pose proof (@layer_sum_through a b T T T eq_refl eq_refl) as H.
  set (s := np_sum _) in *.
  assert (E : s + 0 = s + s) by (rewrite <- H; ring).
  clear H. apply (f_equal (fun q => q - s)) in E.
  ring_simplify in E. symmetry. exact E.
Qed.

(** X1.  [energy_difference_dry] is a difference of state functions: on
    one grid (profiles and heat capacity of one length, one half-level
    more) it can be taken through any intermediate state. *)
Theorem energy_difference_dry_through
        (T_3 T_2 T_1 : list Qc) (sst_3 sst_2 sst_1 : Qc)
        (phlev Cp : list Qc) (eff_Cp_s : Qc) :
  length T_3 = length T_2 -> length T_1 = length T_2 ->
  length Cp = length T_2 -> length phlev = S (length T_2) ->
  energy_difference_dry env T_3 T_1 sst_3 sst_1 phlev Cp eff_Cp_s
  = energy_difference_dry env T_3 T_2 sst_3 sst_2 phlev Cp eff_Cp_s
    + energy_difference_dry env T_2 T_1 sst_2 sst_1 phlev Cp eff_Cp_s.
Proof.
  intros H32 H12 _ _. unfold energy_difference_dry. cbv zeta.
  rewrite (@layer_sum_through _ _ T_3 T_2 T_1 H32 H12). ring.
Qed.

(** X2.  On one grid, the dry energy difference of a state with itself is
    zero, and exchanging the two states changes its sign. *)
Theorem energy_difference_dry_antisymmetric
        (T_2 T_1 : list Qc) (sst_2 sst_1 : Qc)
        (phlev Cp : list Qc) (eff_Cp_s : Qc) :
  length T_2 = length T_1 ->
  length Cp = length T_1 -> length phlev = S (length T_1) ->
  energy_difference_dry env T_1 T_1 sst_1 sst_1 phlev Cp eff_Cp_s = 0 /\
  energy_difference_dry env T_1 T_2 sst_1 sst_2 phlev Cp eff_Cp_s
  = - energy_difference_dry env T_2 T_1 sst_2 sst_1 phlev Cp eff_Cp_s.
Proof.
  intros H21 _ _.
  assert (Hsame : forall T s,
             energy_difference_dry env T T s s phlev Cp eff_Cp_s = 0).
  { intros T s. unfold energy_difference_dry. cbv zeta.
    rewrite layer_sum_same. ring. }
  split; [apply Hsame|].
  pose proof (@layer_sum_through (map (fun c => c / constants_g env) Cp)
                (np_diff phlev) T_1 T_2 T_1 (eq_sym H21) (eq_sym H21)) as H.
  rewrite layer_sum_same in H.
  unfold energy_difference_dry. cbv zeta.
  set (s12 := np_sum (zipWith Qcmult (zipWith Qcmult _ (zipWith Qcminus T_1 T_2)) _)) in *.
  set (s21 := np_sum (zipWith Qcmult (zipWith Qcmult _ (zipWith Qcminus T_2 T_1)) _)) in *.
  assert (E : s12 = - s21).
  { apply (f_equal (fun q => q - s21)) in H. ring_simplify in H.
    rewrite H. ring. }
  rewrite E. ring.
Qed.

(** X3.  The latent heat difference of a profile with itself is zero,
    exchanging two profiles of the same shape changes its sign, and it can
    be taken through an intermediate profile. *)
Theorem latent_heat_difference_laws (h2o_3 h2o_2 h2o_1 : list Qc) :
  length h2o_3 = length h2o_2 -> length h2o_1 = length h2o_2 ->
  latent_heat_difference env h2o_2 h2o_2 = 0 /\
  latent_heat_difference env h2o_1 h2o_2
  = - latent_heat_difference env h2o_2 h2o_1 /\
  latent_heat_difference env h2o_3 h2o_1
  = latent_heat_difference env h2o_3 h2o_2
    + latent_heat_difference env h2o_2 h2o_1.
Proof.
  intros H32 H12.
  pose proof (@latent_heat_difference_through env h2o_2 h2o_2 h2o_2
                eq_refl eq_refl) as Hsame.
  assert (H0 : latent_heat_difference env h2o_2 h2o_2 = 0).
  { set (s := latent_heat_difference env h2o_2 h2o_2) in *.
    apply (f_equal (fun q => q - s)) in Hsame. ring_simplify in Hsame.
    symmetry. exact Hsame. }
  split; [exact H0|]. split.
  - pose proof (@latent_heat_difference_through env h2o_2 h2o_1 h2o_2
                  (eq_sym H12) (eq_sym H12)) as H.
    rewrite H0 in H.
    set (a := latent_heat_difference env h2o_1 h2o_2) in *.
    set (b := latent_heat_difference env h2o_2 h2o_1) in *.
    apply (f_equal (fun q => q - a)) in H. ring_simplify in H.
    rewrite <- H. ring.
  - apply latent_heat_difference_through; auto.
Qed.

End EnergyLaws.

(** ** The threshold crossing of [interp_variable] *)

Section CrossingFacts.
Import HardAdjustment.

Lemma nth_map_bool (f : Qc -> bool) (a : list Qc) (j : nat) :
  (j < length a)%nat -> nth j (map f a) false = f (nth j a 0).
Proof.
  intros Hj. rewrite (nth_indep (map f a) false (f 0)) by (rewrite length_map; exact Hj).
  apply map_nth.
Qed.

Lemma first_true_at (mask : list bool) (i k : nat) :
  (i < length mask)%nat -> nth i mask false = true ->
  (forall j, (j < i)%nat -> nth j mask false = false) ->
  first_true k mask = (k + i)%nat.
Proof.
  revert i k. induction mask as [|b m IH]; intros i k Hi Hat Hbefore.
  - cbn in Hi. lia.
  - destruct i as [|i].
    + cbn in Hat. subst b. cbn. lia.
    + cbn [first_true]. rewrite (Hbefore 0%nat ltac:(lia) : b = false).
      rewrite (IH i (S k)).
      * lia.
      * cbn in Hi. lia.
      * exact Hat.
      * intros j Hj. apply (Hbefore (S j)). lia.
Qed.

Lemma np_argmax_at (mask : list bool) (i : nat) :
  (i < length mask)%nat -> nth i mask false = true ->
  (forall j, (j < i)%nat -> nth j mask false = false) ->
  np_argmax mask = Return i.
Proof.
  intros Hi Hat Hbefore. destruct mask as [|b m]; [cbn in Hi; lia|].
  unfold np_argmax. rewrite (first_true_at (b :: m) 0 Hi Hat Hbefore).
  reflexivity.
Qed.

Lemma getitem_nat (a : list Qc) (k : nat) :
  (k < length a)%nat -> getitem a (Z.of_nat k) = Return (nth k a 0).
Proof.
  intros Hk. unfold getitem.
  replace ((0 <=? Z.of_nat k)%Z) with true by (symmetry; apply Z.leb_le; lia).
  replace ((Z.of_nat k <? Z.of_nat (length a))%Z) with true
    by (symmetry; apply Z.ltb_lt; lia).
  cbn [andb]. replace (Z.to_nat (Z.of_nat k)) with k by lia. reflexivity.
Qed.

Lemma getitem_pred (a : list Qc) (c : nat) :
  (1 <= c)%nat -> (c <= length a)%nat ->
  getitem a (Z.of_nat c - 1) = Return (nth (c - 1) a 0).
Proof.
  intros H1 Hc. replace (Z.of_nat c - 1)%Z with (Z.of_nat (c - 1)) by lia.
  apply getitem_nat. lia.
Qed.

(** Two nodes given in falling order with the query between them. *)
Lemma interp1d_falling (x0 x1 y0 y1 lim : Qc) :
  x1 < x0 -> x1 <= lim -> lim <= x0 ->
  interp1d [x0; x1] [y0; y1] lim = Return (linear (x1, y1) (x0, y0) lim).
Proof.
  intros Hx Hlo Hhi. unfold interp1d, sort_nodes.
  cbn [combine fold_right insert_node fst].
  unfold Qc_leb. rewrite (proj2 (Qc_ltb_lt x1 x0) Hx). cbn [negb segment hd last fst].
  rewrite (proj2 (Qc_ltb_ge lim x1) Hlo).
  rewrite (proj2 (Qc_ltb_ge x0 lim) Hhi). reflexivity.
Qed.

(** When the heating first exceeds the threshold at [i] and first falls
    below it, from [i] on, at [c], [interp_variable] interpolates linearly
    between the levels [c - 1] and [c]. *)
Lemma interp_variable_crossing (variable heating : list Qc) (lim : Qc) (i c : nat) :
  length variable = length heating ->
  (i < length heating)%nat -> lim < nth i heating 0 ->
  (forall j, (j < i)%nat -> nth j heating 0 <= lim) ->
  (i <= c)%nat -> (c < length heating)%nat -> nth c heating 0 < lim ->
  (forall j, (i <= j < c)%nat -> lim <= nth j heating 0) ->
  (1 <= c)%nat /\
  lim <= nth (c - 1) heating 0 /\
  interp_variable variable heating lim
  = Return (linear (nth c heating 0, nth c variable 0)
                   (nth (c - 1) heating 0, nth (c - 1) variable 0) lim).
Proof.
  intros Hlen Hi Hex Hbefore Hic Hc Hfall Hbetween.
  assert (Hne : i <> c).
  { intros ->. exact (Qclt_not_le _ _ Hfall (Qclt_le_weak _ _ Hex)). }
  assert (H1 : (1 <= c)%nat) by lia.
  assert (Hprev : lim <= nth (c - 1) heating 0) by (apply Hbetween; lia).
  split; [exact H1|]. split; [exact Hprev|].
  unfold interp_variable.
  assert (Hpos : np_argmax (map (fun h => gtb h lim) heating) = Return i).
  { apply np_argmax_at.
    - rewrite length_map. exact Hi.
    - rewrite nth_map_bool by exact Hi. unfold gtb. cbn [ltb Qc_Num].
      apply Qc_ltb_lt. exact Hex.
    - intros j Hj. rewrite nth_map_bool by lia. unfold gtb. cbn [ltb Qc_Num].
      apply Qc_ltb_ge. apply Hbefore. exact Hj. }
  rewrite Hpos. cbn [bind].
  assert (Htop : np_argmax (map (fun h => Qc_ltb h lim) (skipn i heating))
                 = Return (c - i)%nat).
  { assert (Hsk : length (skipn i heating) = (length heating - i)%nat)
      by apply length_skipn.
    apply np_argmax_at.
    - rewrite length_map, Hsk. lia.
    - rewrite nth_map_bool by (rewrite Hsk; lia). rewrite nth_skipn.
      replace (i + (c - i))%nat with c by lia. apply Qc_ltb_lt. exact Hfall.
    - intros j Hj. rewrite nth_map_bool by (rewrite Hsk; lia). rewrite nth_skipn.
      apply Qc_ltb_ge. apply Hbetween. lia. }
  rewrite Htop. cbn [bind].
  replace (c - i + i)%nat with c by lia.
  rewrite (getitem_pred heating H1) by lia.
  rewrite (getitem_nat heating Hc). cbn [bind].
  rewrite (getitem_pred variable H1) by lia.
  rewrite (getitem_nat variable) by lia. cbn [bind].
  apply interp1d_falling.
  - eapply Qclt_le_trans; eauto.
  - apply Qclt_le_weak. exact Hfall.
  - exact Hprev.
Qed.

(** X4.  The value interpolated at a falling crossing: the line through the
    two bracketing levels, evaluated at the threshold; it is the value at
    level [c - 1] itself when the heating there equals the threshold. *)
Theorem interp_variable_interpolates_linearly
        (variable heating : list Qc) (lim : Qc) (i c : nat) :
  length variable = length heating ->
  (i < length heating)%nat -> lim < nth i heating 0 ->
  (forall j, (j < i)%nat -> nth j heating 0 <= lim) ->
  (i <= c)%nat -> (c < length heating)%nat -> nth c heating 0 < lim ->
  (forall j, (i <= j < c)%nat -> lim <= nth j heating 0) ->
  let h_lo := nth c heating 0 in
  let h_hi := nth (c - 1) heating 0 in
  let v_lo := nth c variable 0 in
  let v_hi := nth (c - 1) variable 0 in
  interp_variable variable heating lim
  = Return ((v_hi - v_lo) / (h_hi - h_lo) * (lim - h_lo) + v_lo) /\
  (h_hi = lim ->
   interp_variable variable heating lim = Return v_hi).
Proof.
  intros Hlen Hi Hex Hbefore Hic Hc Hfall Hbetween h_lo h_hi v_lo v_hi.
  destruct (@interp_variable_crossing variable heating lim i c Hlen Hi Hex
              Hbefore Hic Hc Hfall Hbetween) as (H1 & Hprev & Hint).
  split; [exact Hint|].
  intros Hhit. rewrite Hint. f_equal. unfold linear. cbn [fst snd].
  fold h_lo h_hi v_lo v_hi. rewrite Hhit.
  assert (Hnz : lim - h_lo <> 0).
  { intros E. assert (E' : lim = h_lo).
    { transitivity (lim - h_lo + h_lo); [ring | rewrite E; ring]. }
    subst h_lo. rewrite <- E' in Hfall. exact (Qclt_not_eq _ _ Hfall eq_refl). }
  field. exact Hnz.
Qed.

(** A line through two nodes stays between their values over the
    interval of the nodes. *)
Lemma linear_between (h_lo h_hi v_lo v_hi lim : Qc) :
  h_lo < lim -> lim <= h_hi ->
  let r := linear (h_lo, v_lo) (h_hi, v_hi) lim in
  (v_lo <= v_hi -> v_lo <= r <= v_hi) /\
  (v_hi <= v_lo -> v_hi <= r <= v_lo).
Proof.
  intros Hfall Hprev r. subst r. unfold linear. cbn [fst snd].
  assert (Hfrac : forall vl vh : Q,
            exists t : Q, (0 <= t)%Q /\ (t <= 1)%Q /\
              ((vh + - vl) * / (h_hi + - h_lo) * (lim + - h_lo) + vl
               == vl + (vh + - vl) * t)%Q).
  { intros vl vh. exists ((lim + - h_lo) * / (h_hi + - h_lo))%Q.
    unfold Qcle, Qclt in *.
    assert (Hd : (0 < h_hi + - h_lo)%Q) by lra.
    split; [|split].
    - apply Qle_shift_div_l; lra.
    - apply Qle_shift_div_r; lra.
    - field. lra. }
  split; intros Hord; to_Q;
    destruct (Hfrac v_lo v_hi) as (t & Ht0 & Ht1 & Heq);
    rewrite Heq; split; nra.
Qed.

(** X5.  The interpolated value lies between the values of the variable
    at the two bracketing levels. *)
Theorem interp_variable_between_levels
        (variable heating : list Qc) (lim : Qc) (i c : nat) :
  length variable = length heating ->
  (i < length heating)%nat -> lim < nth i heating 0 ->
  (forall j, (j < i)%nat -> nth j heating 0 <= lim) ->
  (i <= c)%nat -> (c < length heating)%nat -> nth c heating 0 < lim ->
  (forall j, (i <= j < c)%nat -> lim <= nth j heating 0) ->
  exists r,
    interp_variable variable heating lim = Return r /\
    (nth c variable 0 <= nth (c - 1) variable 0 ->
     nth c variable 0 <= r <= nth (c - 1) variable 0) /\
    (nth (c - 1) variable 0 <= nth c variable 0 ->
     nth (c - 1) variable 0 <= r <= nth c variable 0).
Proof.
  intros Hlen Hi Hex Hbefore Hic Hc Hfall Hbetween.
  destruct (@interp_variable_crossing variable heating lim i c Hlen Hi Hex
              Hbefore Hic Hc Hfall Hbetween) as (H1 & Hprev & Hint).
  eexists. split; [exact Hint|].
  exact (@linear_between _ _ (nth c variable 0) (nth (c - 1) variable 0) _
                         Hfall Hprev).
Qed.

Lemma np_arange_nth (n k : nat) :
  (k < n)%nat -> nth k (np_arange n) 0 = Q2Qc (inject_Z (Z.of_nat k)).
Proof.
  intros Hk. unfold np_arange.
  rewrite (nth_indep _ 0 ((fun i => Q2Qc (inject_Z (Z.of_nat i))) 0%nat))
    by (rewrite length_map, length_seq; exact Hk).
  rewrite (map_nth (fun i => Q2Qc (inject_Z (Z.of_nat i)))).
  rewrite seq_nth by exact Hk. reflexivity.
Qed.

Lemma np_arange_step (c : nat) :
  (1 <= c)%nat ->
  Q2Qc (inject_Z (Z.of_nat (c - 1))) <= Q2Qc (inject_Z (Z.of_nat c)).
Proof.
  intros Hc. unfold Qcle. cbn [this Q2Qc]. rewrite !Qred_correct.
  rewrite <- Zle_Qle. lia.
Qed.

(** X6.  On a heating profile (profiles of one length, a non-zero
    timestep) that rises above the threshold and falls below it again,
    [update_convective_top] returns with the three diagnostics defined: the
    pressure and the temperature interpolated by [interp_variable], and a
    fractional index between the two levels that bracket the crossing. *)
Theorem update_convective_top_at_crossing
        (self : Variables) (T_rad T_con p : list Qc) (timestep lim : Qc)
        (i c : nat) :
  let heating := map (fun d => d / timestep) (zipWith Qcminus T_con T_rad) in
  timestep <> 0 -> length T_rad = length T_con ->
  length p = length heating -> length T_con = length heating ->
  (i < length heating)%nat -> lim < nth i heating 0 ->
  (forall j, (j < i)%nat -> nth j heating 0 <= lim) ->
  (i <= c)%nat -> (c < length heating)%nat -> nth c heating 0 < lim ->
  (forall j, (i <= j < c)%nat -> lim <= nth j heating 0) ->
  exists self' contop_p contop_T contop_index,
    update_convective_top self T_rad T_con p timestep lim = Return self' /\
    interp_variable p heating lim = Return contop_p /\
    interp_variable T_con heating lim = Return contop_T /\
    self' "convective_top_plev"%string = Some [finite contop_p] /\
    self' "convective_top_temperature"%string = Some [finite contop_T] /\
    self' "convective_top_index"%string = Some [finite contop_index] /\
    Q2Qc (inject_Z (Z.of_nat (c - 1))) <= contop_index
    <= Q2Qc (inject_Z (Z.of_nat c)).
Proof.
  intros heating _ _ Hp HT Hi Hex Hbefore Hic Hc Hfall Hbetween.
  destruct (@interp_variable_crossing p heating lim i c Hp Hi Hex
              Hbefore Hic Hc Hfall Hbetween) as (H1 & Hprev & Hintp).
  destruct (@interp_variable_crossing T_con heating lim i c HT Hi Hex
              Hbefore Hic Hc Hfall Hbetween) as (_ & _ & HintT).
  assert (Hlen : length (np_arange (length p)) = length heating).
  { unfold np_arange. rewrite length_map, length_seq. exact Hp. }
  destruct (@interp_variable_crossing (np_arange (length p)) heating lim i c
              Hlen Hi Hex Hbefore Hic Hc Hfall Hbetween) as (_ & _ & Hinti).
  assert (Hany : np_any (map (fun h => gtb h lim) heating) = true).
  { destruct (np_any (map (fun h => gtb h lim) heating)) eqn:E; auto.
    rewrite np_any_false in E. specialize (E i).
    rewrite length_map in E. specialize (E Hi).
    rewrite nth_map_bool in E by exact Hi. unfold gtb in E. cbn [ltb Qc_Num] in E.
    apply Qc_ltb_ge in E. exfalso. exact (Qclt_not_le _ _ Hex E). }
  unfold update_convective_top. fold heating.
  rewrite Hany, Hintp, HintT, Hinti. cbn [bind fold_left].
  do 4 eexists. split; [reflexivity|].
  split; [reflexivity|]. split; [reflexivity|].
  split; [reflexivity|]. split; [reflexivity|]. split; [reflexivity|].
  rewrite !np_arange_nth by lia.
  apply (@linear_between _ _ (Q2Qc (inject_Z (Z.of_nat c)))
                         (Q2Qc (inject_Z (Z.of_nat (c - 1)))) _ Hfall Hprev).
  apply np_arange_step. exact H1.
Qed.

(** Two nodes given in rising order with the query between them. *)
Lemma interp1d_rising (x0 x1 y0 y1 lim : Qc) :
  x0 <= lim -> lim < x1 ->
  interp1d [x0; x1] [y0; y1] lim = Return (linear (x0, y0) (x1, y1) lim).
Proof.
  intros Hlo Hhi. unfold interp1d, sort_nodes.
  cbn [combine fold_right insert_node fst].
  assert (Hx : x0 <= x1) by (apply Qclt_le_weak; eapply Qcle_lt_trans; eauto).
  unfold Qc_leb. rewrite (proj2 (Qc_ltb_ge x1 x0) Hx).
  cbn [negb segment hd last fst].
  rewrite (proj2 (Qc_ltb_ge lim x0) Hlo).
  rewrite (proj2 (Qc_ltb_ge x1 lim) (Qclt_le_weak _ _ Hhi)). reflexivity.
Qed.

(** When the heating first exceeds the threshold at a level [i >= 1] and
    is below it at no level from [i] on, the second [np.argmax] finds
    nothing and gives [0]: [interp_variable] interpolates between the levels
    [i - 1] and [i], which straddle the threshold. *)
Lemma interp_variable_rising (variable heating : list Qc) (lim : Qc) (i : nat) :
  length variable = length heating ->
  (1 <= i)%nat -> (i < length heating)%nat -> lim < nth i heating 0 ->
  (forall j, (j < i)%nat -> nth j heating 0 <= lim) ->
  (forall j, (i <= j < length heating)%nat -> lim <= nth j heating 0) ->
  interp_variable variable heating lim
  = Return (linear (nth (i - 1) heating 0, nth (i - 1) variable 0)
                   (nth i heating 0, nth i variable 0) lim).
Proof.
  intros Hlen H1 Hi Hex Hbefore Hafter.
  unfold interp_variable.
  assert (Hpos : np_argmax (map (fun h => gtb h lim) heating) = Return i).
  { apply np_argmax_at.
    - rewrite length_map. exact Hi.
    - rewrite nth_map_bool by exact Hi. unfold gtb. cbn [ltb Qc_Num].
      apply Qc_ltb_lt. exact Hex.
    - intros j Hj. rewrite nth_map_bool by lia. unfold gtb. cbn [ltb Qc_Num].
      apply Qc_ltb_ge. apply Hbefore. exact Hj. }
  rewrite Hpos. cbn [bind].
  assert (Hsk : length (skipn i heating) = (length heating - i)%nat)
    by apply length_skipn.
  assert (Htop : np_argmax (map (fun h => Qc_ltb h lim) (skipn i heating))
                 = Return 0%nat).
  { assert (Hnone : first_true 0 (map (fun h => Qc_ltb h lim) (skipn i heating))
                    = 0%nat).
    { apply first_true_none. intros b Hb. apply in_map_iff in Hb.
      destruct Hb as (h & <- & Hin). apply Qc_ltb_ge.
      destruct (In_nth _ _ 0 Hin) as (j & Hj & <-).
      rewrite nth_skipn. apply Hafter. rewrite Hsk in Hj. lia. }
    destruct (skipn i heating) as [|h0 t] eqn:E; [cbn in Hsk; lia|].
    cbn [map np_argmax] in *. rewrite Hnone. reflexivity. }
  rewrite Htop. cbn [bind Nat.add].
  rewrite (getitem_pred heating H1) by lia.
  rewrite (getitem_nat heating Hi). cbn [bind].
  rewrite (getitem_pred variable H1) by lia.
  rewrite (getitem_nat variable) by lia. cbn [bind].
  apply interp1d_rising.
  - apply Hbefore. lia.
  - exact Hex.
Qed.

(** C10 (amended).  For profiles of one length and a non-zero timestep
    whose heating rate first exceeds the threshold at level [i] and is below
    it at no level from [i] on, the interpolation branch of
    [update_convective_top] is taken.  When [i = 0] and the last level
    exceeds the threshold too, the index [contop_index - 1 = -1] wraps to
    the last element, the pair [(heating[-1], heating[0])] lies wholly above
    the threshold, and both [interp_variable] and [update_convective_top]
    raise the interpolation range error instead of producing the undefined
    sentinel.  When [i >= 1], the pair [(heating[i-1], heating[i])] straddles
    the threshold, the interpolation succeeds with the value on the line
    through the two levels, and the diagnostics are defined. *)
Theorem heating_that_never_falls_back
        (self : Variables) (T_rad T_con p : list Qc) (timestep lim : Qc)
        (i : nat) :
  let heating := map (fun d => d / timestep) (zipWith Qcminus T_con T_rad) in
  timestep <> 0 -> length T_con = length T_rad -> length p = length T_rad ->
  (i < length heating)%nat -> lim < nth i heating 0 ->
  (forall j, (j < i)%nat -> nth j heating 0 <= lim) ->
  (forall j, (i <= j < length heating)%nat -> lim <= nth j heating 0) ->
  np_any (map (fun h => gtb h lim) heating) = true /\
  (i = 0%nat -> lim < last heating 0 ->
   getitem heating (Z.of_nat 0 - 1) = Return (last heating 0) /\
   interp_variable p heating lim = Raise below_range /\
   update_convective_top self T_rad T_con p timestep lim = Raise below_range) /\
  ((1 <= i)%nat ->
   nth (i - 1) heating 0 <= lim /\
   exists self' contop_p contop_T contop_index,
     interp_variable p heating lim = Return contop_p /\
     contop_p
     = (nth i p 0 - nth (i - 1) p 0)
       / (nth i heating 0 - nth (i - 1) heating 0)
       * (lim - nth (i - 1) heating 0) + nth (i - 1) p 0 /\
     update_convective_top self T_rad T_con p timestep lim = Return self' /\
     self' "convective_top_plev"%string = Some [finite contop_p] /\
     self' "convective_top_temperature"%string = Some [finite contop_T] /\
     self' "convective_top_index"%string = Some [finite contop_index]).
Proof.
  intros heating _ HT Hp Hi Hex Hbefore Hafter.
  assert (Hh : length heating = length T_rad).
  { unfold heating. rewrite length_map, zipWith_length, HT. apply Nat.min_id. }
  assert (Hph : length p = length heating) by congruence.
  assert (HTh : length T_con = length heating) by congruence.
  assert (Hany : np_any (map (fun h => gtb h lim) heating) = true).
  { destruct (np_any (map (fun h => gtb h lim) heating)) eqn:E; auto.
    rewrite np_any_false in E. specialize (E i).
    rewrite length_map in E. specialize (E Hi).
    rewrite nth_map_bool in E by exact Hi. unfold gtb in E. cbn [ltb Qc_Num] in E.
    apply Qc_ltb_ge in E. exfalso. exact (Qclt_not_le _ _ Hex E). }
  split; [exact Hany|]. split.
  - intros -> Hlast.
    assert (Hne : heating <> []) by (destruct heating; [cbn in Hi; lia | discriminate]).
    assert (Hhd : lim < hd 0 heating) by (destruct heating; [congruence | exact Hex]).
    assert (Hall : forall h, In h heating -> lim <= h).
    { intros h Hin. destruct (In_nth _ _ 0 Hin) as (j & Hj & <-).
      apply Hafter. lia. }
    assert (Hint : interp_variable p heating lim = Raise below_range)
      by (apply interp_variable_below; auto).
    split; [apply getitem_wraps; exact Hne|]. split; [exact Hint|].
    unfold update_convective_top. fold heating. rewrite Hany, Hint. reflexivity.
  - intros H1. split; [apply Hbefore; lia|].
    pose proof (@interp_variable_rising p heating lim i Hph H1 Hi Hex
                  Hbefore Hafter) as Hintp.
    pose proof (@interp_variable_rising T_con heating lim i HTh H1 Hi Hex
                  Hbefore Hafter) as HintT.
    assert (Hlen : length (np_arange (length p)) = length heating).
    { unfold np_arange. rewrite length_map, length_seq. exact Hph. }
    pose proof (@interp_variable_rising (np_arange (length p)) heating lim i
                  Hlen H1 Hi Hex Hbefore Hafter) as Hinti.
    unfold update_convective_top. fold heating.
    rewrite Hany, Hintp, HintT, Hinti. cbn [bind fold_left].
    do 4 eexists. split; [reflexivity|].
    split; [reflexivity|]. split; [reflexivity|].
    split; [reflexivity|]. split; reflexivity.
Qed.

End CrossingFacts.

(** ** Outcomes of [convective_adjustment] *)

Section OutcomeFacts.
Import HardAdjustment.
Variable env : Collaborators.

(** How the part before the loop can end. *)
Lemma setup_outcome (atmosphere atmosphere_old : Atmosphere) (humidity : Humidity)
      (lapse : list Qc) (surface : Surface) (timestep : Qc) :
  match setup env atmosphere atmosphere_old humidity lapse surface timestep with
  | Return (Done _ s) =>
      s = temperature surface \/
      (fixed_temperature surface = false /\ np_min (T atmosphere) = Return s)
  | Return (Search _ _ _) => True
  | Raise e =>
      e = empty_profile /\ T atmosphere = [] /\ fixed_temperature surface = false
  | OutOfFuel => False
  end.
Proof.
  unfold setup.
  destruct (fixed_temperature surface); [left; reflexivity|].
  destruct (create_and_check_profile env atmosphere atmosphere_old humidity
              surface (temperature surface) _ timestep) as [Tc dp].
  destruct (Qc_ltb dp (heat_capacity surface / ten_to_13)); [left; reflexivity|].
  destruct (T atmosphere) as [|x a] eqn:ET.
  - cbn. repeat split; reflexivity.
  - cbn [np_min bind].
    match goal with
    | |- context [Qc_ltb (np_abs ?d) ?nz] => destruct (Qc_ltb (np_abs d) nz)
    end.
    + right. split; reflexivity.
    + exact I.
Qed.

(** When the search is started, the call ends as the loop does. *)
Lemma convective_adjustment_search (atmosphere atmosphere_old : Atmosphere)
      (humidity : Humidity) (lapse : list Qc) (surface : Surface) (timestep : Qc)
      (lp : list Qc) (near_zero : Qc) (st : Locals) :
  setup env atmosphere atmosphere_old humidity lapse surface timestep
  = Return (Search lp near_zero st) ->
  let trial := fun surfaceT =>
                 create_and_check_profile env atmosphere atmosphere_old humidity
                                          surface surfaceT lp timestep in
  (exists k x,
      (1 <= k < 100)%nat /\
      x = proposal (after trial (k - 1) st) /\
      loop_condition near_zero (after trial k st) = false /\
      (forall j, (j < k)%nat -> loop_condition near_zero (after trial j st) = true) /\
      convective_adjustment env atmosphere atmosphere_old humidity lapse surface
                            timestep = Return (T_con (after trial k st), x))
  \/
  ((forall j, (j < 100)%nat -> loop_condition near_zero (after trial j st) = true) /\
   convective_adjustment env atmosphere atmosphere_old humidity lapse surface
                         timestep = Raise no_profile).
Proof.
  intros Hs trial.
  destruct (setup_search _ _ _ _ _ _ _ Hs) as (_ & _ & _ & (m & _ & Hst) & Hcond).
  assert (Hc : counter st = 0%nat) by (subst st; reflexivity).
  unfold convective_adjustment. rewrite Hs. cbn [bind]. fold trial.
  pose proof (@while_loop_outcome trial near_zero 100 st) as Hout.
  specialize (Hout ltac:(lia) ltac:(lia)).
  destruct (while_loop trial near_zero 100 st) as [st'|e|]; [| |tauto].
  - left. destruct Hout as (k & Hk & Hst' & Hfalse & Hbefore).
    destruct k as [|k]; [cbn in Hst'; subst st'; congruence|].
    exists (S k), (proposal (after trial k st)).
    replace (S k - 1)%nat with k by lia. subst st'.
    split; [lia|]. split; [reflexivity|]. split; [exact Hfalse|].
    split; [exact Hbefore|].
    cbn [bind after].
    destruct (iteration_assigns trial (after trial k st)) as (_ & Hx & _).
    rewrite Hx. reflexivity.
  - right. destruct Hout as (-> & Hall). split; [exact Hall | reflexivity].
Qed.



End OutcomeFacts.

(** ** The bracket over the iterations *)

Section NestingFacts.
Import HardAdjustment.
Variable env : Collaborators.

Lemma iteration_nested (objective : Qc -> list Qc * Qc) (st : Locals) :
  bracketed st ->
  surfaceTneg st <= surfaceTneg (iteration objective st) /\
  surfaceTpos (iteration objective st) <= surfaceTpos st.
Proof.
  intros Hb. pose proof (proposal_between Hb) as [Hlo Hhi].
  destruct (iteration_assigns objective st) as (_ & _ & _ & Hpos & Hneg).
  destruct (Qclt_le_dec 0 (snd (objective (proposal st)))) as [Hd|Hd].
  - destruct (Hpos Hd) as (-> & _ & -> & _). split; [apply Qcle_refl | exact Hhi].
  - destruct (Hneg Hd) as (-> & _ & -> & _). split; [exact Hlo | apply Qcle_refl].
Qed.

Lemma after_nested (objective : Qc -> list Qc * Qc) (st : Locals) (k : nat) :
  bracketed st ->
  surfaceTneg st <= surfaceTneg (after objective k st) /\
  surfaceTpos (after objective k st) <= surfaceTpos st.
Proof.
  intros Hb. induction k as [|k [IHlo IHhi]]; cbn [after].
  - split; apply Qcle_refl.
  - destruct (iteration_nested objective (after_bracketed objective k Hb))
      as [Hlo Hhi].
    split; eapply Qcle_trans; eauto.
Qed.

(** X10.  Under the conditions that make the search start from a bracket, no
    iteration widens it: the lower bound never falls and the upper bound
    never rises. *)
Theorem bracket_never_widens
        (atmosphere atmosphere_old : Atmosphere) (humidity : Humidity)
        (lapse : list Qc) (surface : Surface) (timestep : Qc)
        (lp : list Qc) (near_zero : Qc) (st0 : Locals) (k : nat) :
  setup env atmosphere atmosphere_old humidity lapse surface timestep
  = Return (Search lp near_zero st0) ->
  0 < heat_capacity surface ->
  surfaceTneg st0 <= temperature surface ->
  let trial := fun surfaceT =>
                 create_and_check_profile env atmosphere atmosphere_old humidity
                                          surface surfaceT lp timestep in
  surfaceTneg (after trial k st0) <= surfaceTneg (after trial (S k) st0) /\
  surfaceTpos (after trial (S k) st0) <= surfaceTpos (after trial k st0) /\
  surfaceTneg st0 <= surfaceTneg (after trial k st0) /\
  surfaceTpos (after trial k st0) <= surfaceTpos st0.
Proof.
  intros Hs HC Hmin trial.
  assert (Hb0 : bracketed st0) by (eapply setup_search_bracketed; eauto).
  pose proof (after_bracketed trial k Hb0) as Hb.
  destruct (iteration_nested trial Hb) as [Hlo Hhi].
  destruct (after_nested trial k Hb0) as [Hlo0 Hhi0].
  cbn [after]. auto.
Qed.

(** X11.  With a positive surface heat capacity and a coldest level [m] no
    warmer than the surface, the surface temperature that
    [convective_adjustment] returns lies between [m] and the surface
    temperature it was given: the adjustment never warms the surface and
    never cools it below the coldest level. *)
Theorem returned_surface_temperature_in_range
        (atmosphere atmosphere_old : Atmosphere) (humidity : Humidity)
        (lapse : list Qc) (surface : Surface) (timestep : Qc)
        (m : Qc) (T_adj : list Qc) (T_s : Qc) :
  0 < heat_capacity surface ->
  np_min (T atmosphere) = Return m ->
  m <= temperature surface ->
  convective_adjustment env atmosphere atmosphere_old humidity lapse surface
                        timestep = Return (T_adj, T_s) ->
  m <= T_s <= temperature surface.
Proof.
  intros HC Hm Hle Hret.
  pose proof (setup_outcome env atmosphere atmosphere_old humidity lapse surface
                            timestep) as Hs.
  destruct (setup env atmosphere atmosphere_old humidity lapse surface timestep)
    as [[Tc s|lp nz st]|e|] eqn:Es; [| | |tauto].
  - unfold convective_adjustment in Hret. rewrite Es in Hret. cbn [bind] in Hret.
    injection Hret as <- <-.
    destruct Hs as [->|[_ Hmin]].
    + split; [exact Hle | apply Qcle_refl].
    + rewrite Hm in Hmin. injection Hmin as <-.
      split; [apply Qcle_refl | exact Hle].
  - destruct (setup_search _ _ _ _ _ _ _ Es) as (_ & _ & _ & (m' & Hm' & Hst) & _).
    rewrite Hm in Hm'. injection Hm' as <-.
    assert (Hneg0 : surfaceTneg st = m) by (subst st; reflexivity).
    assert (Hpos0 : surfaceTpos st = temperature surface) by (subst st; reflexivity).
    assert (Hb0 : bracketed st).
    { eapply setup_search_bracketed; eauto. rewrite Hneg0. exact Hle. }
    destruct (convective_adjustment_search _ _ _ _ _ _ _ Es)
      as [(k & x & Hk & Hx & _ & _ & Hret')|[_ Hraise]].
    + rewrite Hret' in Hret. injection Hret as _ <-.
      match type of Hx with
      | x = proposal (after ?f _ _) => set (trial := f) in *
      end.
      pose proof (after_bracketed trial (k - 1) Hb0) as Hb.
      destruct (proposal_between Hb) as [Hlo Hhi].
      destruct (after_nested trial (k - 1) Hb0) as [Hlo0 Hhi0].
      rewrite Hneg0 in Hlo0. rewrite Hpos0 in Hhi0. subst x.
      split; eapply Qcle_trans; eauto.
    + rewrite Hraise in Hret. discriminate.
  - destruct Hs as (_ & HT & _). rewrite HT in Hm. discriminate.
Qed.

End NestingFacts.

(** ** Stability of a column under the hard scheme *)

Section StabilityFacts.

Lemma np_any_true (mask : list bool) :
  np_any mask = true -> exists i, (i < length mask)%nat /\ nth i mask false = true.
Proof.
  unfold np_any. induction mask as [|b m IH]; cbn [existsb]; [discriminate|].
  destruct b.
  - intros _. exists 0%nat. split; [cbn; lia | reflexivity].
  - cbn [orb]. intros H. destruct (IH H) as (i & Hi & Ht).
    exists (S i). split; [cbn; lia | exact Ht].
Qed.

Lemma candidate_nth (p phlev lp : list Qc) (surfaceT : Qc) (i : nat) :
  (i < length (lapse_rate_candidate p phlev surfaceT lp))%nat ->
  nth i (lapse_rate_candidate p phlev surfaceT lp) 0
  = surfaceT - nth i (np_cumsum (zipWith Qcmult (dp_lapse p phlev) lp)) 0.
Proof.
  unfold lapse_rate_candidate. rewrite length_map. intros Hi.
  rewrite (nth_indep _ 0 ((fun s => sub surfaceT s) 0))
    by (rewrite length_map; exact Hi).
  rewrite (map_nth (fun s => sub surfaceT s)). reflexivity.
Qed.

(** The hard scheme returns the radiative profile itself exactly when the
    candidate exceeds it nowhere. *)
Lemma convective_profile_unchanged (T_rad p phlev lp : list Qc) (surfaceT : Qc) :
  length p = length T_rad -> length lp = length T_rad ->
  (HardAdjustment.convective_profile T_rad p phlev surfaceT lp = T_rad <->
   np_any (zipWith gtb (lapse_rate_candidate p phlev surfaceT lp) T_rad) = false).
Proof.
  intros Hp Hlp.
  set (candidate := lapse_rate_candidate p phlev surfaceT lp).
  assert (Hc : length candidate = length T_rad)
    by (apply lapse_rate_candidate_length; auto).
  set (mask := zipWith gtb candidate T_rad).
  assert (Hmlen : length mask = length T_rad)
    by (unfold mask; rewrite zipWith_length; lia).
  unfold HardAdjustment.convective_profile. fold candidate. fold mask.
  destruct (np_any mask) eqn:Eany; split; auto; try discriminate.
  intros Heq. exfalso.
  destruct (np_any_true mask Eany) as (i & Hi & Hti).
  assert (Hin : In i (np_where mask)) by (apply np_where_In; auto).
  assert (Hne : np_where mask <> []) by (intros E; rewrite E in Hin; inversion Hin).
  pose proof (np_max_In Hne) as Hmax. apply np_where_In in Hmax.
  destruct Hmax as [Htop Htrue].
  set (top := np_max (np_where mask)) in *.
  apply (f_equal (fun l => nth top l 0)) in Heq.
  rewrite nth_splice in Heq by exact Hc.
  replace (top <? S top)%nat with true in Heq by (symmetry; apply Nat.ltb_lt; lia).
  unfold mask in Htrue.
  rewrite (zipWith_nth gtb candidate T_rad 0 0 false) in Htrue by lia.
  unfold gtb in Htrue. cbn [ltb Qc_Num] in Htrue. apply Qc_ltb_lt in Htrue.
  rewrite Heq in Htrue. exact (Qclt_not_eq _ _ Htrue eq_refl).
Qed.

(** X13.  A column that the hard scheme leaves unchanged at one surface
    temperature is left unchanged at every colder one. *)
Theorem stable_column_stays_stable_when_colder
        (T_rad p phlev lp : list Qc) (surfaceT surfaceT' : Qc) :
  T_rad <> [] -> phlev <> [] ->
  length p = length T_rad -> length lp = length T_rad ->
  surfaceT' <= surfaceT ->
  HardAdjustment.convective_profile T_rad p phlev surfaceT lp = T_rad ->
  HardAdjustment.convective_profile T_rad p phlev surfaceT' lp = T_rad.
Proof.
  intros _ _ Hp Hlp Hle Hstable.
  apply convective_profile_unchanged in Hstable; auto.
  apply convective_profile_unchanged; auto.
  assert (Hc : forall s, length (lapse_rate_candidate p phlev s lp) = length T_rad)
    by (intros s; apply lapse_rate_candidate_length; auto).
  rewrite np_any_false in *. intros i Hi.
  rewrite zipWith_length, Hc, Nat.min_id in Hi.
  specialize (Hstable i). rewrite zipWith_length, Hc, Nat.min_id in Hstable.
  specialize (Hstable Hi).
  rewrite (zipWith_nth gtb (lapse_rate_candidate p phlev surfaceT lp) T_rad
                       0 0 false) in Hstable by (rewrite ?Hc; lia).
  rewrite (zipWith_nth gtb (lapse_rate_candidate p phlev surfaceT' lp) T_rad
                       0 0 false) by (rewrite ?Hc; lia).
  unfold gtb in *. cbn [ltb Qc_Num] in *.
  rewrite candidate_nth in Hstable by (rewrite Hc; exact Hi).
  rewrite candidate_nth by (rewrite Hc; exact Hi).
  apply Qc_ltb_ge in Hstable. apply Qc_ltb_ge.
  set (c := nth i (np_cumsum (zipWith Qcmult (dp_lapse p phlev) lp)) 0) in *.
  clearbody c. to_Q. lra.
Qed.

(** X14.  The pressure lapse rate is linear in the critical lapse rate: scaling
    the latter by a factor scales the former by the same factor (and a zero
    critical lapse rate gives a zero pressure lapse rate). *)
Theorem pressure_lapse_rate_scales
        (env : Collaborators) (p phlev T lapse : list Qc) (k : Qc) :
  pressure_lapse_rate env p phlev T (map (Qcmult k) lapse)
  = map (Qcmult k) (pressure_lapse_rate env p phlev T lapse).
Proof.
  unfold pressure_lapse_rate. cbv zeta.
  generalize (interp1d_extrapolate p (zipWith (typhon_density env) p T)
                                   (removelast phlev)).
  intros density. revert density.
  induction lapse as [|l lapse IH]; intros [|d density]; cbn [map zipWith];
    try reflexivity.
  rewrite IH. f_equal. unfold Qcdiv. ring.
Qed.

End StabilityFacts.

(** ** The relaxed scheme: edge cases and bounds *)

Section RelaxedBounds.
Local Open Scope R_scope.

Lemma relaxed_profile_length (convective_tau : option (list R))
      (T_rad p phlev : list R) (surfaceT : R) (lp : list R) (timestep : R)
      (T_old : list R) :
  length (RelaxedAdjustment.get_convective_tau convective_tau p) = length T_rad ->
  length p = length T_rad -> length lp = length T_rad ->
  length (RelaxedAdjustment.convective_profile convective_tau T_rad p phlev
            surfaceT lp timestep T_old) = length T_rad.
Proof.
  intros Htau Hp Hlp. unfold RelaxedAdjustment.convective_profile.
  rewrite !zipWith_length, !length_map, Htau.
  rewrite (@lapse_rate_candidate_length R _ p phlev lp surfaceT _ Hp Hlp). lia.
Qed.

(** X15.  With a zero timestep, and a timescale that is zero nowhere, the
    relaxed scheme returns the radiative profile. *)
Theorem relaxed_profile_at_zero_timestep
        (convective_tau : option (list R)) (T_rad p phlev : list R)
        (surfaceT : R) (lp : list R) (T_old : list R) :
  T_rad <> [] -> phlev <> [] ->
  ~ In 0 (RelaxedAdjustment.get_convective_tau convective_tau p) ->
  length (RelaxedAdjustment.get_convective_tau convective_tau p) = length T_rad ->
  length p = length T_rad -> length lp = length T_rad ->
  RelaxedAdjustment.convective_profile convective_tau T_rad p phlev surfaceT lp
                                       0 T_old = T_rad.
Proof.
  intros _ _ _ Htau Hp Hlp.
  apply (nth_ext _ _ 0 0).
  - apply relaxed_profile_length; auto.
  - intros i Hi. rewrite relaxed_profile_length in Hi by auto.
    rewrite relaxed_profile_nth; auto.
    + replace (0 / nth i (RelaxedAdjustment.get_convective_tau convective_tau p) 0)
        with 0 by (unfold Rdiv; ring).
      rewrite Ropp_0, exp_0. ring.
    + apply lapse_rate_candidate_length; auto.
Qed.

(** X16.  For a non-negative ratio [timestep / tau] (and a non-zero
    [tau]) the relaxed profile lies, at every level, between the radiative
    value and the lapse-rate candidate. *)
Theorem relaxed_profile_between
        (convective_tau : option (list R)) (T_rad p phlev : list R)
        (surfaceT : R) (lp : list R) (timestep : R) (T_old : list R) (i : nat) :
  let tau := RelaxedAdjustment.get_convective_tau convective_tau p in
  let candidate := lapse_rate_candidate p phlev surfaceT lp in
  let T_con := RelaxedAdjustment.convective_profile convective_tau T_rad p phlev
                 surfaceT lp timestep T_old in
  phlev <> [] -> ~ In 0 tau ->
  length tau = length T_rad ->
  length p = length T_rad -> length lp = length T_rad ->
  (i < length T_rad)%nat ->
  0 <= timestep / nth i tau 0 ->
  Rmin (nth i T_rad 0) (nth i candidate 0) <= nth i T_con 0
  <= Rmax (nth i T_rad 0) (nth i candidate 0).
Proof.
  intros tau candidate T_con _ _ Htau Hp Hlp Hi Hr. subst T_con.
  rewrite relaxed_profile_nth; auto;
    [|apply lapse_rate_candidate_length; auto].
  fold tau. fold candidate.
  set (r := timestep / nth i tau 0) in *.
  set (t := nth i T_rad 0). set (c := nth i candidate 0).
  assert (Hw0 : 0 < exp (- r)) by apply exp_pos.
  assert (Hw1 : exp (- r) <= 1).
  { rewrite <- exp_0. destruct Hr as [Hr|Hr].
    - apply Rlt_le. apply exp_increasing. lra.
    - rewrite <- Hr, Ropp_0. apply Rle_refl. }
  set (w := exp (- r)) in *.
  unfold Rmin, Rmax. destruct (Rle_dec t c); split; nra.
Qed.

(** X17.  The default timescale profile [tau0 * exp(p[0] / p)] over
    non-zero pressures: one entry per level, all positive; over positive
    pressures it grows as the pressure falls, from [e / 24] days at the
    lowest level. *)
Theorem default_tau_profile (p : list R) (i j : nat) :
  p <> [] -> ~ In 0 p ->
  let tau := RelaxedAdjustment.get_convective_tau None p in
  length tau = length p /\
  ((i < length p)%nat -> 0 < nth i tau 0) /\
  (nth 0 p 0 <> 0 -> nth 0 tau 0 = exp 1 / 24) /\
  ((i < length p)%nat -> (j < length p)%nat ->
   0 < nth 0 p 0 -> 0 < nth j p 0 < nth i p 0 ->
   nth i tau 0 < nth j tau 0).
Proof.
  intros _ _ tau. subst tau. unfold RelaxedAdjustment.get_convective_tau.
  assert (Hnth : forall k, (k < length p)%nat ->
            nth k (map (fun p_i => 1 / 24 * exp (item0 p / p_i)) p) 0
            = 1 / 24 * exp (nth 0 p 0 / nth k p 0)).
  { intros k Hk.
    rewrite (nth_indep _ 0 ((fun p_i => 1 / 24 * exp (item0 p / p_i)) 0))
      by (rewrite length_map; exact Hk).
    rewrite (map_nth (fun p_i => 1 / 24 * exp (item0 p / p_i))).
    unfold item0. destruct p; reflexivity. }
  split; [apply length_map|]. split; [|split].
  - intros Hi. rewrite Hnth by exact Hi.
    pose proof (exp_pos (nth 0 p 0 / nth i p 0)). lra.
  - intros Hp0. assert (H0 : (0 < length p)%nat).
    { destruct p; [cbn in Hp0; congruence | cbn; lia]. }
    rewrite Hnth by exact H0.
    replace (nth 0 p 0 / nth 0 p 0) with 1 by (field; exact Hp0).
    unfold Rdiv. ring.
  - intros Hi Hj Hp0 [Hpj Hpij]. rewrite !Hnth by assumption.
    apply Rmult_lt_compat_l; [lra|]. apply exp_increasing.
    unfold Rdiv. apply Rmult_lt_compat_l; [exact Hp0|].
    apply Rinv_lt_contravar; [nra | exact Hpij].
Qed.

End RelaxedBounds.

(** ** A stable column *)

Section NoOpFacts.
Import HardAdjustment.
Variable env : Collaborators.



End NoOpFacts.

(** ** Sorted nodes of an interpolant *)

Section NodeFacts.

Lemma insert_node_perm (n : Qc * Qc) (nodes : list (Qc * Qc)) :
  Permutation (n :: nodes) (insert_node n nodes).
Proof.
  induction nodes as [|m nodes IH]; cbn [insert_node]; [reflexivity|].
  destruct (Qc_leb (fst n) (fst m)); [reflexivity|].
  rewrite perm_swap. apply perm_skip. exact IH.
Qed.

Lemma sort_nodes_perm (x y : list Qc) :
  Permutation (combine x y) (sort_nodes x y).
Proof.
  unfold sort_nodes. induction (combine x y) as [|n l IH]; cbn [fold_right].
  - reflexivity.
  - rewrite <- insert_node_perm. apply perm_skip. exact IH.
Qed.

Lemma sort_nodes_length (x y : list Qc) :
  length x = length y -> length (sort_nodes x y) = length x.
Proof.
  intros Hlen. rewrite <- (Permutation_length (sort_nodes_perm x y)).
  rewrite length_combine. lia.
Qed.

Lemma insert_node_sorted (n : Qc * Qc) (nodes : list (Qc * Qc)) :
  StronglySorted before nodes ->
  (forall m, In m nodes -> fst m <> fst n) ->
  StronglySorted before (insert_node n nodes).
Proof.
  induction nodes as [|m nodes IH]; intros Hs Hne; cbn [insert_node].
  - constructor; constructor.
  - inversion Hs as [|? ? Hs' Hall]; subst.
    destruct (Qc_leb (fst n) (fst m)) eqn:E.
    + assert (Hlt : fst n < fst m).
      { unfold Qc_leb in E. apply negb_true_iff in E. apply Qc_ltb_ge in E.
        destruct (Qcle_lt_or_eq _ _ E) as [L|Eq]; auto.
        exfalso. apply (Hne m); [left; reflexivity | symmetry; exact Eq]. }
      constructor; [exact Hs|]. constructor; [exact Hlt|].
      rewrite Forall_forall in *. intros k Hk. unfold before in *.
      eapply Qclt_trans; eauto.
    + assert (Hlt : fst m < fst n).
      { unfold Qc_leb in E. apply negb_false_iff in E. apply Qc_ltb_lt in E. exact E. }
      constructor.
      * apply IH; auto. intros k Hk. apply Hne. right. exact Hk.
      * rewrite Forall_forall in *. intros k Hk.
        apply (Permutation_in _ (Permutation_sym (insert_node_perm n nodes))) in Hk.
        destruct Hk as [<-|Hk]; [exact Hlt | apply Hall; exact Hk].
Qed.

Lemma sort_nodes_sorted (x y : list Qc) :
  length x = length y -> NoDup x -> StronglySorted before (sort_nodes x y).
Proof.
  unfold sort_nodes. revert y.
  induction x as [|a x IH]; intros [|b y] Hlen Hnd; try discriminate;
    cbn [combine fold_right]; [constructor|].
  inversion Hnd as [|? ? Hnotin Hnd']; subst.
  apply insert_node_sorted.
  - apply IH; [cbn in Hlen; congruence | exact Hnd'].
  - intros m Hm Heq. cbn [fst] in Heq.
    apply (Permutation_in _ (Permutation_sym (sort_nodes_perm x y))) in Hm.
    destruct m as [mx my]. apply in_combine_l in Hm. cbn [fst] in Heq.
    subst mx. exact (Hnotin Hm).
Qed.

(** At the abscissa of one of its nodes a sorted interpolant takes the
    ordinate of that node. *)
Lemma interp1d_eval_node (nodes : list (Qc * Qc)) (a b : Qc) :
  StronglySorted before nodes -> (2 <= length nodes)%nat ->
  In (a, b) nodes -> interp1d_eval nodes a = b.
Proof.
  unfold interp1d_eval.
  induction nodes as [|lo nodes IH]; intros Hs Hlen Hin; [cbn in Hlen; lia|].
  destruct nodes as [|hi rest]; [cbn in Hlen; lia|].
  inversion Hs as [|? ? Hs' Hall]; subst.
  assert (Hlohi : fst lo < fst hi).
  { rewrite Forall_forall in Hall. apply Hall. left. reflexivity. }
  assert (Hat_lo : linear lo hi (fst lo) = snd lo).
  { unfold linear. ring. }
  assert (Hat_hi : linear lo hi (fst hi) = snd hi).
  { unfold linear. field. intros E.
    assert (E' : fst hi = fst lo).
    { transitivity (fst hi - fst lo + fst lo); [ring | rewrite E; ring]. }
    rewrite E' in Hlohi. exact (Qclt_not_eq _ _ Hlohi eq_refl). }
  cbn [segment].
  destruct Hin as [Elo|[Ehi|Hrest]].
  - subst lo. cbn [fst snd] in *.
    destruct rest; [exact Hat_lo|].
    unfold Qc_leb. rewrite (proj2 (Qc_ltb_ge (fst hi) a) (Qclt_le_weak _ _ Hlohi)).
    exact Hat_lo.
  - subst hi. cbn [fst snd] in *.
    destruct rest; [exact Hat_hi|].
    unfold Qc_leb. rewrite (proj2 (Qc_ltb_ge a a) (Qcle_refl a)).
    exact Hat_hi.
  - destruct rest as [|n rest]; [inversion Hrest|].
    inversion Hs' as [|? ? _ Hall']; subst.
    assert (Hhi : fst hi < a).
    { rewrite Forall_forall in Hall'. exact (Hall' (a, b) Hrest). }
    unfold Qc_leb. rewrite (proj2 (Qc_ltb_lt (fst hi) a) Hhi). cbn [negb].
    apply IH.
    + exact Hs'.
    + cbn. lia.
    + right. exact Hrest.
Qed.

(** The first node of a sorted interpolant is its least and the last its
    greatest. *)
Lemma sorted_nodes_range (nodes : list (Qc * Qc)) (lo n : Qc * Qc) :
  StronglySorted before nodes -> In n nodes ->
  fst (hd lo nodes) <= fst n /\ fst n <= fst (last nodes lo).
Proof.
  induction nodes as [|m nodes IH]; intros Hs Hin; [inversion Hin|].
  inversion Hs as [|? ? Hs' Hall]; subst. rewrite Forall_forall in Hall.
  cbn [hd]. split.
  - destruct Hin as [->|Hin]; [apply Qcle_refl|].
    apply Qclt_le_weak. exact (Hall n Hin).
  - destruct nodes as [|k nodes].
    + destruct Hin as [->|[]]. apply Qcle_refl.
    + change (last (m :: k :: nodes) lo) with (last (k :: nodes) lo).
      destruct Hin as [->|Hin].
      * assert (Hk : In (last (k :: nodes) lo) (k :: nodes)).
        { clear. revert k. induction nodes as [|j nodes IHn]; intros k.
          - left. reflexivity.
          - right. apply IHn. }
        apply Qclt_le_weak. exact (Hall _ Hk).
      * apply (IH Hs' Hin).
Qed.

(** Queried at its own abscissae, an interpolant through distinct
    abscissae returns its ordinates. *)
Lemma interp1d_call_nodes (x y : list Qc) :
  length x = length y -> (2 <= length x)%nat -> NoDup x ->
  interp1d_call (sort_nodes x y) x = Return y.
Proof.
  intros Hlen H2 Hnd.
  pose proof (sort_nodes_sorted y Hlen Hnd) as Hs.
  pose proof (sort_nodes_length x y Hlen) as Hn.
  pose proof (sort_nodes_perm x y) as Hperm.
  assert (Hnode : forall i, (i < length x)%nat ->
            In (nth i x 0, nth i y 0) (sort_nodes x y)).
  { intros i Hi. apply (Permutation_in _ Hperm).
    rewrite <- (combine_nth x y i 0 0 Hlen). apply nth_In.
    rewrite length_combine. lia. }
  unfold interp1d_call.
  destruct (sort_nodes x y) as [|lo [|hi rest]] eqn:En;
    try (cbn in Hn; lia).
  rewrite <- En in *.
  assert (Hbelow : existsb (fun xn => Qc_ltb xn (fst lo)) x = false).
  { apply not_true_is_false. intros E. apply existsb_exists in E.
    destruct E as (xn & Hin & Hlt). apply Qc_ltb_lt in Hlt.
    destruct (In_nth x xn 0 Hin) as (i & Hi & <-).
    destruct (@sorted_nodes_range _ lo _ Hs (Hnode i Hi)) as [Hge _].
    rewrite En in Hge at 1. cbn [hd fst] in Hge.
    exact (Qclt_not_le _ _ Hlt Hge). }
  rewrite Hbelow.
  assert (Habove : existsb (fun xn => Qc_ltb (fst (last (sort_nodes x y) lo)) xn) x
                   = false).
  { apply not_true_is_false. intros E. apply existsb_exists in E.
    destruct E as (xn & Hin & Hlt). apply Qc_ltb_lt in Hlt.
    destruct (In_nth x xn 0 Hin) as (i & Hi & <-).
    destruct (@sorted_nodes_range _ lo _ Hs (Hnode i Hi)) as [_ Hle].
    cbn [fst] in Hle. exact (Qclt_not_le _ _ Hlt Hle). }
  rewrite Habove. f_equal.
  apply (nth_ext _ _ 0 0).
  - rewrite length_map. exact Hlen.
  - intros i Hi. rewrite length_map in Hi.
    rewrite (nth_indep _ 0 (interp1d_eval (sort_nodes x y) 0))
      by (rewrite length_map; exact Hi).
    rewrite (map_nth (interp1d_eval (sort_nodes x y))).
    apply interp1d_eval_node; [exact Hs | lia | exact (Hnode i Hi)].
Qed.

End NodeFacts.

(** ** The interpolant objects *)

Section InterpolantFacts.

Lemma interp1d_new_returns (x y : list Qc) (f : list (Qc * Qc)) :
  interp1d_new x y = Return f ->
  length x = length y /\ (2 <= length x)%nat /\ f = sort_nodes x y.
Proof.
  unfold interp1d_new.
  destruct (Nat.eqb_spec (length x) (length y)) as [E|N]; cbn [negb];
    [|discriminate].
  destruct (Nat.ltb_spec (length x) 2) as [L|G]; [discriminate|].
  intros H. injection H as <-. auto.
Qed.

Lemma interp1d_new_ok (x y : list Qc) :
  length x = length y -> (2 <= length x)%nat ->
  interp1d_new x y = Return (sort_nodes x y).
Proof.
  intros E G. unfold interp1d_new.
  rewrite (proj2 (Nat.eqb_eq _ _) E). cbn [negb].
  rewrite (proj2 (Nat.ltb_ge _ _) G). reflexivity.
Qed.

Lemma last_default (A : Type) (l : list A) (d d' : A) :
  l <> [] -> last l d = last l d'.
Proof.
  induction l as [|a [|b l] IH]; intros Hne; [congruence | reflexivity |].
  change (last (b :: l) d = last (b :: l) d'). apply IH. discriminate.
Qed.

(** The array query agrees with the scalar [interp1d] on one abscissa. *)
Lemma interp1d_call_scalar (x y : list Qc) (x_new : Qc) :
  interp1d x y x_new
  = v <- interp1d_call (sort_nodes x y) [x_new] ;; Return (hd 0 v).
Proof.
  unfold interp1d, interp1d_call, interp1d_eval.
  destruct (sort_nodes x y) as [|lo [|hi rest]]; try reflexivity.
  assert (Hseg : exists a b, segment (lo :: hi :: rest) x_new = Some (a, b)).
  { clear. revert lo hi. induction rest as [|n rest IH]; intros lo hi.
    - cbn. eauto.
    - cbn [segment]. destruct (Qc_leb x_new (fst hi)); eauto. }
  destruct Hseg as (a & b & Hseg). rewrite Hseg.
  cbn [hd existsb]. rewrite !orb_false_r.
  rewrite (@last_default _ (lo :: hi :: rest) b lo) by discriminate.
  destruct (Qc_ltb x_new (fst lo)); [reflexivity|].
  destruct (Qc_ltb (fst (last (lo :: hi :: rest) lo)) x_new); [reflexivity|].
  cbn [bind map hd]. rewrite Hseg. reflexivity.
Qed.

End InterpolantFacts.

(** ** RelaxedTauT: the cached timescale function *)

Section TauTFacts.
Import RelaxedTauT.
Variable np_exp : Qc -> Qc.

(** X19.  The first call of [get_convective_tau], on a temperature profile
    with distinct entries on at least two levels, returns the timescale
    profile itself (the given one, or the default computed from a grid of
    non-zero pressures) and stores it together with the interpolant built
    on it. *)
Theorem TauT_first_call_returns_tau (self : State) (p T_old : list Qc) :
  let tau :=
    match convective_tau self with
    | None => map (fun p_i => 1 / Q2Qc 24 * np_exp (item0 p / p_i)) p
    | Some tau => tau
    end in
  tau_function self = None ->
  (convective_tau self = None -> ~ In 0 p) ->
  length T_old = length tau -> (2 <= length T_old)%nat -> NoDup T_old ->
  get_convective_tau np_exp self p T_old
  = (Return tau,
     {| convective_tau := Some tau;
        tau_function := Some (sort_nodes T_old tau) |}).
Proof.
  intros tau Hnone _ Hlen H2 Hnd. unfold get_convective_tau.
  assert (Htau : match convective_tau self with
                 | None => default_tau np_exp p
                 | Some tau => Return tau
                 end = Return tau).
  { subst tau. destruct (convective_tau self) as [given|]; [reflexivity|].
    destruct p as [|p_0 p']; [cbn in Hlen; lia | reflexivity]. }
  rewrite Htau. cbn [tau_function]. rewrite Hnone.
  rewrite (@interp1d_new_ok _ _ Hlen H2).
  rewrite (@interp1d_call_nodes _ _ Hlen H2 Hnd). reflexivity.
Qed.

(** X20.  Once a call has returned, the interpolant is never rebuilt: every
    later call, whatever pressure grid it is given, evaluates the stored
    interpolant at its [T_old] and leaves the instance as it is. *)
Theorem TauT_cache_is_never_rebuilt
        (self self1 : State) (p T_old tau_out : list Qc) :
  get_convective_tau np_exp self p T_old = (Return tau_out, self1) ->
  exists tau f,
    self1 = {| convective_tau := Some tau; tau_function := Some f |} /\
    forall p' T_old',
      get_convective_tau np_exp self1 p' T_old'
      = (interp1d_call f T_old', self1).
Proof.
  unfold get_convective_tau.
  destruct (match convective_tau self with
            | None => default_tau np_exp p
            | Some tau => Return tau
            end) as [tau| |]; try discriminate.
  cbn [tau_function]. intros H.
  assert (Hself1 : exists f,
            self1 = {| convective_tau := Some tau; tau_function := Some f |}).
  { destruct (tau_function self) as [f|].
    - injection H as _ <-. eauto.
    - destruct (interp1d_new T_old tau) as [f| |]; try discriminate.
      injection H as _ <-. eauto. }
  destruct Hself1 as (f & ->). exists tau, f. split; [reflexivity|].
  intros p' T_old'. reflexivity.
Qed.

(** X21.  The interpolant spans the temperatures of the first call only: after
    a first call on [T_old], a call whose temperature profile has an entry
    colder than every entry of [T_old] raises the interpolation range
    error, and the instance stays as it is. *)
Theorem TauT_colder_profile_raises
        (self self1 : State) (p T_old tau_out p' T_old' : list Qc) (cold : Qc) :
  tau_function self = None ->
  get_convective_tau np_exp self p T_old = (Return tau_out, self1) ->
  In cold T_old' -> (forall t, In t T_old -> cold < t) ->
  get_convective_tau np_exp self1 p' T_old' = (Raise below_range, self1).
Proof.
  unfold get_convective_tau at 1.
  destruct (match convective_tau self with
            | None => default_tau np_exp p
            | Some tau => Return tau
            end) as [tau| |]; try (intros; discriminate).
  cbn [tau_function].
  intros Hnone H Hin Hcold. rewrite Hnone in H.
  destruct (interp1d_new T_old tau) as [f| |] eqn:Enew; try discriminate.
  injection H as _ <-.
  destruct (@interp1d_new_returns _ _ _ Enew) as (Hlen & H2 & ->).
  unfold get_convective_tau. cbn [convective_tau tau_function].
  f_equal. unfold interp1d_call.
  pose proof (sort_nodes_length T_old tau Hlen) as Hn.
  pose proof (sort_nodes_perm T_old tau) as Hperm.
  destruct (sort_nodes T_old tau) as [|lo [|hi rest]]; try (cbn in Hn; lia).
  assert (Hlo : In (fst lo) T_old).
  { assert (Hin' : In lo (combine T_old tau)).
    { apply (Permutation_in _ (Permutation_sym Hperm)). left. reflexivity. }
    destruct lo as [a b]. apply in_combine_l in Hin'. exact Hin'. }
  assert (Hex : existsb (fun xn => Qc_ltb xn (fst lo)) T_old' = true).
  { apply existsb_exists. exists cold. split; [exact Hin|].
    apply Qc_ltb_lt. apply Hcold. exact Hlo. }
  rewrite Hex. reflexivity.
Qed.

End TauTFacts.

(** ** Ozone fixed with height, and with normalised pressure *)

Section OzoneFacts.

(** X22.  The first call of [OzoneHeight.get], on at least two levels of
    distinct height, leaves the ozone profile as it is and caches the
    interpolant; from then on the ozone returned is the cached function of
    the height alone, and at a height that was a level of the first call it
    is the ozone of that level. *)
Theorem OzoneHeight_is_fixed_with_height (z O3 z' O3' : list Qc) (i j : nat) :
  length z = length O3 -> (2 <= length z)%nat -> NoDup z ->
  let f := sort_nodes z O3 in
  OzoneHeight.get OzoneHeight.init z O3 = (Return O3, Some f) /\
  OzoneHeight.get (Some f) z' O3' = (Return (map (interp1d_eval f) z'), Some f) /\
  ((i < length z)%nat -> (j < length z')%nat -> nth j z' 0 = nth i z 0 ->
   nth j (map (interp1d_eval f) z') 0 = nth i O3 0).
Proof.
  intros Hlen H2 Hnd f. split; [|split].
  - unfold OzoneHeight.get, OzoneHeight.init.
    rewrite (@interp1d_new_ok _ _ Hlen H2). fold f.
    assert (Hcall := @interp1d_call_nodes _ _ Hlen H2 Hnd). fold f in Hcall.
    unfold interp1d_call in Hcall.
    destruct f as [|lo [|hi rest]]; try discriminate.
    destruct (existsb _ z); [discriminate|].
    destruct (existsb _ z); [discriminate|].
    injection Hcall as ->. reflexivity.
  - reflexivity.
  - intros Hi Hj Hz.
    rewrite (nth_indep _ 0 (interp1d_eval f 0)) by (rewrite length_map; exact Hj).
    rewrite (map_nth (interp1d_eval f)). rewrite Hz.
    apply interp1d_eval_node.
    + apply sort_nodes_sorted; assumption.
    + unfold f. rewrite sort_nodes_length by exact Hlen. exact H2.
    + apply (Permutation_in _ (sort_nodes_perm z O3)).
      rewrite <- (combine_nth z O3 i 0 0 Hlen). apply nth_In.
      rewrite length_combine. lia.
Qed.

(** X23.  [OzoneNormedPressure.get]: while the convective top stays at the
    normalisation level (a non-zero pressure), the ozone profile on a grid
    of at least two distinct pressure levels is returned unchanged, at the
    first call and at every later one. *)
Theorem OzoneNormedPressure_unchanged_at_norm_level
        (plev O3 : list Qc) (norm : Qc) (given : option Qc) :
  length plev = length O3 -> (2 <= length plev)%nat -> NoDup plev ->
  norm <> 0 -> (given = None \/ given = Some norm) ->
  let self1 :=
    {| OzoneNormedPressure.norm_level := Some norm;
       OzoneNormedPressure._f :=
         Some (sort_nodes (map (fun p => p / norm) plev) O3) |} in
  OzoneNormedPressure.get (OzoneNormedPressure.init given) plev O3 norm
  = (Return O3, self1) /\
  OzoneNormedPressure.get self1 plev O3 norm = (Return O3, self1).
Proof.
  intros Hlen H2 Hnd Hnorm Hgiven self1.
  set (x := map (fun p => p / norm) plev).
  assert (Hxlen : length x = length O3) by (unfold x; rewrite length_map; exact Hlen).
  assert (Hx2 : (2 <= length x)%nat) by (unfold x; rewrite length_map; exact H2).
  assert (Hxnd : NoDup x).
  { assert (Hinj : forall a b : Qc, a / norm = b / norm -> a = b).
    { intros a b E.
      transitivity (a / norm * norm); [field; exact Hnorm|].
      rewrite E. field. exact Hnorm. }
    unfold x. clear - Hnd Hinj.
    induction Hnd as [|a l Hnotin Hnd IH]; cbn [map]; constructor; auto.
    intros Hin. apply in_map_iff in Hin. destruct Hin as (b & E & Hb).
    apply Hinj in E. subst b. exact (Hnotin Hb). }
  assert (Hcall := @interp1d_call_nodes _ _ Hxlen Hx2 Hxnd).
  assert (Hmap : map (interp1d_eval (sort_nodes x O3)) x = O3).
  { unfold interp1d_call in Hcall.
    destruct (sort_nodes x O3) as [|lo [|hi rest]]; try discriminate.
    destruct (existsb _ x); [discriminate|].
    destruct (existsb _ x); [discriminate|].
    injection Hcall as ->. reflexivity. }
  split.
  - unfold OzoneNormedPressure.get, OzoneNormedPressure.init.
    cbn [OzoneNormedPressure.norm_level OzoneNormedPressure._f].
    assert (Hn : match given with Some n => n | None => norm end = norm)
      by (destruct Hgiven as [->| ->]; reflexivity).
    rewrite Hn. fold x. rewrite (@interp1d_new_ok _ _ Hxlen Hx2).
    rewrite Hmap. reflexivity.
  - unfold OzoneNormedPressure.get. subst self1.
    cbn [OzoneNormedPressure.norm_level OzoneNormedPressure._f].
    fold x. rewrite Hmap. reflexivity.
Qed.

End OzoneFacts.

(** ** Worked instances *)

Section Instances.
Import HardAdjustment.

Lemma energy_difference_dry_through_witness :
  let phlev := Column.arr [100000; 70000; 30000]%Q in
  let Cp := Column.arr [1004; 1004]%Q in
  let C := Q2Qc 210000000 in
  energy_difference_dry Column.earth (Column.arr [301; 252]%Q)
    (Column.arr [300; 250]%Q) (Q2Qc 304) (Q2Qc 305) phlev Cp C
  = energy_difference_dry Column.earth (Column.arr [301; 252]%Q)
      (Column.arr [300.5; 251]%Q) (Q2Qc 304) (Q2Qc 304.5) phlev Cp C
    + energy_difference_dry Column.earth (Column.arr [300.5; 251]%Q)
        (Column.arr [300; 250]%Q) (Q2Qc 304.5) (Q2Qc 305) phlev Cp C.
Proof.
  exact (@energy_difference_dry_through Column.earth
           (Column.arr [301; 252]%Q) (Column.arr [300.5; 251]%Q)
           (Column.arr [300; 250]%Q) (Q2Qc 304) (Q2Qc 304.5) (Q2Qc 305)
           (Column.arr [100000; 70000; 30000]%Q) (Column.arr [1004; 1004]%Q)
           (Q2Qc 210000000) eq_refl eq_refl eq_refl eq_refl).
Defined.

Lemma energy_difference_dry_antisymmetric_witness :
  let phlev := Column.arr [100000; 70000; 30000]%Q in
  let Cp := Column.arr [1004; 1004]%Q in
  let C := Q2Qc 210000000 in
  energy_difference_dry Column.earth (Column.arr [300; 250]%Q)
    (Column.arr [301; 252]%Q) (Q2Qc 305) (Q2Qc 304) phlev Cp C
  = - energy_difference_dry Column.earth (Column.arr [301; 252]%Q)
        (Column.arr [300; 250]%Q) (Q2Qc 304) (Q2Qc 305) phlev Cp C.
Proof.
  exact (proj2 (@energy_difference_dry_antisymmetric Column.earth
           (Column.arr [301; 252]%Q) (Column.arr [300; 250]%Q)
           (Q2Qc 304) (Q2Qc 305)
           (Column.arr [100000; 70000; 30000]%Q) (Column.arr [1004; 1004]%Q)
           (Q2Qc 210000000) eq_refl eq_refl eq_refl)).
Defined.

Lemma latent_heat_difference_laws_witness :
  latent_heat_difference Column.earth (Column.arr [3; 1]%Q) (Column.arr [2; 1]%Q)
  = - latent_heat_difference Column.earth (Column.arr [2; 1]%Q)
        (Column.arr [3; 1]%Q).
Proof.
  exact (proj1 (proj2 (@latent_heat_difference_laws Column.earth
           (Column.arr [4; 2]%Q) (Column.arr [2; 1]%Q) (Column.arr [3; 1]%Q)
           eq_refl eq_refl))).
Defined.

(** A heating profile that is above the threshold 0.2 at the two lowest
    levels and below it at the third. *)
Lemma interp_variable_interpolates_linearly_witness :
  interp_variable (Column.arr [90000; 50000; 10000]%Q)
                  (Column.arr [0.5; 0.3; 0.1]%Q) (Q2Qc 0.2)
  = Return ((Q2Qc 50000 - Q2Qc 10000) / (Q2Qc 0.3 - Q2Qc 0.1)
            * (Q2Qc 0.2 - Q2Qc 0.1) + Q2Qc 10000).
Proof.
  refine (proj1 (@interp_variable_interpolates_linearly
            (Column.arr [90000; 50000; 10000]%Q) (Column.arr [0.5; 0.3; 0.1]%Q)
            (Q2Qc 0.2) 0%nat 2%nat eq_refl _ _ _ _ _ _ _)).
  - cbn. lia.
  - vm_compute. reflexivity.
  - intros j Hj. lia.
  - lia.
  - cbn. lia.
  - vm_compute. reflexivity.
  - intros [|[|j]] Hj; [vm_compute; discriminate | vm_compute; discriminate | lia].
Defined.

Lemma interp_variable_between_levels_witness :
  exists r,
    interp_variable (Column.arr [90000; 50000; 10000]%Q)
                    (Column.arr [0.5; 0.3; 0.1]%Q) (Q2Qc 0.2) = Return r /\
    Q2Qc 10000 <= r <= Q2Qc 50000.
Proof.
  destruct (@interp_variable_between_levels
              (Column.arr [90000; 50000; 10000]%Q) (Column.arr [0.5; 0.3; 0.1]%Q)
              (Q2Qc 0.2) 0%nat 2%nat eq_refl
              ltac:(cbn; lia) ltac:(vm_compute; reflexivity)
              ltac:(intros j Hj; lia) ltac:(lia) ltac:(cbn; lia)
              ltac:(vm_compute; reflexivity)
              ltac:(intros [|[|j]] Hj;
                    [vm_compute; discriminate | vm_compute; discriminate | lia]))
    as (r & Hr & Hdown & _).
  exists r. split; [exact Hr|]. apply Hdown. vm_compute. discriminate.
Defined.

Lemma update_convective_top_at_crossing_witness :
  exists self' contop_index,
    update_convective_top (fun _ => None) (Column.arr [300; 250; 220]%Q)
      (Column.arr [305; 253; 221]%Q) (Column.arr [90000; 50000; 10000]%Q)
      (Q2Qc 10) (Q2Qc 0.2) = Return self' /\
    self' "convective_top_index"%string = Some [finite contop_index] /\
    Q2Qc 1 <= contop_index <= Q2Qc 2.
Proof.
  destruct (@update_convective_top_at_crossing (fun _ => None)
              (Column.arr [300; 250; 220]%Q) (Column.arr [305; 253; 221]%Q)
              (Column.arr [90000; 50000; 10000]%Q) (Q2Qc 10) (Q2Qc 0.2)
              0%nat 2%nat ltac:(Qc_discriminate) eq_refl eq_refl eq_refl
              ltac:(cbn; lia) ltac:(vm_compute; reflexivity)
              ltac:(intros j Hj; lia) ltac:(lia) ltac:(cbn; lia)
              ltac:(vm_compute; reflexivity)
              ltac:(intros [|[|j]] Hj;
                    [vm_compute; discriminate | vm_compute; discriminate | lia]))
    as (self' & cp & cT & ci & Hret & _ & _ & _ & _ & Hidx & Hrange).
  exists self', ci. split; [exact Hret|]. split; [exact Hidx|]. exact Hrange.
Defined.

Lemma heating_that_never_falls_back_witness :
  update_convective_top (fun _ => None) (Column.arr [300; 250]%Q)
                        (Column.arr [301; 252]%Q) (Column.arr [90000; 50000]%Q)
                        1 (Q2Qc 0.2) = Raise below_range.
Proof.
  refine (proj2 (proj2 (proj1 (proj2
    (@heating_that_never_falls_back (fun _ => None) (Column.arr [300; 250]%Q)
       (Column.arr [301; 252]%Q) (Column.arr [90000; 50000]%Q) 1 (Q2Qc 0.2)
       0%nat _ eq_refl eq_refl _ _ _ _)) eq_refl _))).
  - Qc_discriminate.
  - cbn. lia.
  - vm_compute. reflexivity.
  - intros j Hj. lia.
  - intros [|[|j]] Hj; [vm_compute; discriminate | vm_compute; discriminate |].
    cbn in Hj. lia.
  - vm_compute. reflexivity.
Defined.


Lemma bracket_never_widens_witness :
  let surface := Column.slab 305 in
  let lp := pressure_lapse_rate Column.earth (plev Column.dry)
              (phlev Column.dry) (T Column.dry) Column.isothermal_lapse in
  let trial := fun surfaceT =>
    create_and_check_profile Column.earth Column.dry Column.dry
                             Column.fixed_vmr surface surfaceT lp 1 in
  let st0 := loop_entry surface (fst (trial (temperature surface)))
                        (snd (trial (temperature surface))) (Q2Qc 250) in
  surfaceTneg (after trial 1 st0) <= surfaceTneg (after trial 2 st0).
Proof.
  cbv zeta.
  refine (proj1 (@bracket_never_widens
                   Column.earth Column.dry Column.dry Column.fixed_vmr
                   Column.isothermal_lapse (Column.slab 305) 1 _ _ _ 1%nat
                   _ _ _)).
  - vm_compute. reflexivity.
  - reflexivity.
  - vm_compute. discriminate.
Defined.

Lemma returned_surface_temperature_in_range_witness :
  let surface := Column.slab 305 in
  let lp := pressure_lapse_rate Column.earth (plev Column.dry)
              (phlev Column.dry) (T Column.dry) Column.isothermal_lapse in
  let trial := fun surfaceT =>
    create_and_check_profile Column.earth Column.dry Column.dry
                             Column.fixed_vmr surface surfaceT lp 1 in
  let st0 := loop_entry surface (fst (trial (temperature surface)))
                        (snd (trial (temperature surface))) (Q2Qc 250) in
  Q2Qc 250 <= proposal (after trial 1 st0) <= temperature surface.
Proof.
  cbv zeta.
  refine (@returned_surface_temperature_in_range
            Column.earth Column.dry Column.dry Column.fixed_vmr
            Column.isothermal_lapse (Column.slab 305) 1 (Q2Qc 250) _ _ _ _ _ _).
  - reflexivity.
  - vm_compute. reflexivity.
  - vm_compute. discriminate.
  - vm_compute. reflexivity.
Defined.

Lemma search_conserves_energy_witness :
  let surface := Column.slab 305 in
  let near_zero := heat_capacity surface / ten_to_13 in
  let lp := pressure_lapse_rate Column.earth (plev Column.dry)
              (phlev Column.dry) (T Column.dry) Column.isothermal_lapse in
  let trial := fun surfaceT =>
    create_and_check_profile Column.earth Column.dry Column.dry
                             Column.fixed_vmr surface surfaceT lp 1 in
  let st0 := loop_entry surface (fst (trial (temperature surface)))
                        (snd (trial (temperature surface))) (Q2Qc 250) in
  let T_s := proposal (after trial 1 st0) in
  np_abs (snd (trial T_s)) < near_zero.
Proof.
  cbv zeta.
  refine (proj2 (@search_conserves_energy
                   Column.earth Column.dry Column.dry Column.fixed_vmr
                   Column.isothermal_lapse (Column.slab 305) 1 _ _ _ _ _ _ _)).
  - vm_compute. reflexivity.
  - vm_compute. reflexivity.
Defined.

Lemma stable_column_stays_stable_when_colder_witness :
  HardAdjustment.convective_profile (Column.arr [300; 250]%Q)
    (Column.arr [90000; 50000]%Q) (Column.arr [100000; 70000; 30000]%Q)
    (Q2Qc 260) (Column.arr [-0.0005; -0.0005]%Q)
  = Column.arr [300; 250]%Q.
Proof.
  refine (@stable_column_stays_stable_when_colder
            (Column.arr [300; 250]%Q) (Column.arr [90000; 50000]%Q)
            (Column.arr [100000; 70000; 30000]%Q)
            (Column.arr [-0.0005; -0.0005]%Q) (Q2Qc 270) (Q2Qc 260)
            ltac:(discriminate) ltac:(discriminate) eq_refl eq_refl _ _).
  - vm_compute. discriminate.
  - vm_compute. reflexivity.
Defined.


Lemma TauT_first_call_returns_tau_witness :
  fst (RelaxedTauT.get_convective_tau (fun x => 1 + x)
         (RelaxedTauT.init (Some (Column.arr [0.1; 0.5]%Q)))
         (Column.arr [90000; 50000]%Q) (Column.arr [300; 250]%Q))
  = Return (Column.arr [0.1; 0.5]%Q).
Proof.
  rewrite (@TauT_first_call_returns_tau (fun x => 1 + x)
             (RelaxedTauT.init (Some (Column.arr [0.1; 0.5]%Q)))
             (Column.arr [90000; 50000]%Q) (Column.arr [300; 250]%Q)
             eq_refl ltac:(discriminate) eq_refl ltac:(cbn; lia)).
  - reflexivity.
  - repeat constructor; cbn; intros H; repeat destruct H as [H|H];
      try (revert H; Qc_discriminate); auto.
Defined.

Lemma TauT_cache_is_never_rebuilt_witness :
  let T_old := Column.arr [300; 250]%Q in
  let tau := Column.arr [0.1; 0.5]%Q in
  let f := sort_nodes T_old tau in
  exists tau' f',
    {| RelaxedTauT.convective_tau := Some tau;
       RelaxedTauT.tau_function := Some f |}
    = {| RelaxedTauT.convective_tau := Some tau';
         RelaxedTauT.tau_function := Some f' |} /\
    forall p' T_old',
      RelaxedTauT.get_convective_tau (fun x => 1 + x)
        {| RelaxedTauT.convective_tau := Some tau;
           RelaxedTauT.tau_function := Some f |} p' T_old'
      = (interp1d_call f' T_old',
         {| RelaxedTauT.convective_tau := Some tau;
            RelaxedTauT.tau_function := Some f |}).
Proof.
  cbv zeta.
  refine (@TauT_cache_is_never_rebuilt (fun x => 1 + x)
            (RelaxedTauT.init (Some (Column.arr [0.1; 0.5]%Q))) _
            (Column.arr [90000; 50000]%Q) (Column.arr [300; 250]%Q)
            (map (interp1d_eval (sort_nodes (Column.arr [300; 250]%Q)
                                            (Column.arr [0.1; 0.5]%Q)))
                 (Column.arr [300; 250]%Q)) _).
  reflexivity.
Defined.

Lemma TauT_colder_profile_raises_witness :
  let T_old := Column.arr [300; 250]%Q in
  let tau := Column.arr [0.1; 0.5]%Q in
  RelaxedTauT.get_convective_tau (fun x => 1 + x)
    {| RelaxedTauT.convective_tau := Some tau;
       RelaxedTauT.tau_function := Some (sort_nodes T_old tau) |}
    (Column.arr [90000; 50000]%Q) (Column.arr [299; 249]%Q)
  = (Raise below_range,
     {| RelaxedTauT.convective_tau := Some tau;
        RelaxedTauT.tau_function := Some (sort_nodes T_old tau) |}).
Proof.
  cbv zeta.
  refine (@TauT_colder_profile_raises (fun x => 1 + x)
            (RelaxedTauT.init (Some (Column.arr [0.1; 0.5]%Q))) _
            (Column.arr [90000; 50000]%Q) (Column.arr [300; 250]%Q)
            (map (interp1d_eval (sort_nodes (Column.arr [300; 250]%Q)
                                            (Column.arr [0.1; 0.5]%Q)))
                 (Column.arr [300; 250]%Q))
            (Column.arr [90000; 50000]%Q) (Column.arr [299; 249]%Q)
            (Q2Qc 249) eq_refl _ _ _).
  - reflexivity.
  - right. left. reflexivity.
  - intros t [<-|[<-|[]]]; vm_compute; reflexivity.
Defined.

Lemma OzoneHeight_is_fixed_with_height_witness :
  let z := Column.arr [1000; 5500]%Q in
  let O3 := Column.arr [0.00000003; 0.00000008]%Q in
  OzoneHeight.get OzoneHeight.init z O3 = (Return O3, Some (sort_nodes z O3)).
Proof.
  cbv zeta.
  refine (proj1 (@OzoneHeight_is_fixed_with_height
                   (Column.arr [1000; 5500]%Q)
                   (Column.arr [0.00000003; 0.00000008]%Q) [] [] 0%nat 0%nat
                   eq_refl ltac:(cbn; lia) _)).
  repeat constructor; cbn; intros H; repeat destruct H as [H|H];
    try (revert H; Qc_discriminate); auto.
Defined.

Lemma OzoneNormedPressure_unchanged_at_norm_level_witness :
  let plev := Column.arr [90000; 50000]%Q in
  let O3 := Column.arr [0.00000003; 0.00000008]%Q in
  let norm := Q2Qc 20000 in
  OzoneNormedPressure.get (OzoneNormedPressure.init None) plev O3 norm
  = (Return O3,
     {| OzoneNormedPressure.norm_level := Some norm;
        OzoneNormedPressure._f :=
          Some (sort_nodes (map (fun p => p / norm) plev) O3) |}).
Proof.
  cbv zeta.
  refine (proj1 (@OzoneNormedPressure_unchanged_at_norm_level
                   (Column.arr [90000; 50000]%Q)
                   (Column.arr [0.00000003; 0.00000008]%Q) (Q2Qc 20000) None
                   eq_refl ltac:(cbn; lia) _ _ (or_introl eq_refl))).
  - repeat constructor; cbn; intros H; repeat destruct H as [H|H];
      try (revert H; Qc_discriminate); auto.
  - Qc_discriminate.
Defined.

End Instances.

Section RealInstances.
Local Open Scope R_scope.

Lemma relaxed_profile_at_zero_timestep_witness :
  RelaxedAdjustment.convective_profile (Some [1]) [300] [90000]
    [100000; 80000] 290 [0] 0 [] = [300].
Proof.
  refine (@relaxed_profile_at_zero_timestep (Some [1]) [300] [90000]
            [100000; 80000] 290 [0] [] _ _ _ eq_refl eq_refl eq_refl).
  - discriminate.
  - discriminate.
  - cbn. intros [H|[]]. lra.
Defined.

Lemma relaxed_profile_between_witness :
  Rmin (nth 0 [300] 0)
       (nth 0 (lapse_rate_candidate [90000] [100000; 80000] 290 [0]) 0)
  <= nth 0 (RelaxedAdjustment.convective_profile (Some [1]) [300] [90000]
              [100000; 80000] 290 [0] 1 []) 0
  <= Rmax (nth 0 [300] 0)
          (nth 0 (lapse_rate_candidate [90000] [100000; 80000] 290 [0]) 0).
Proof.
  refine (@relaxed_profile_between (Some [1]) [300] [90000] [100000; 80000]
            290 [0] 1 [] 0%nat _ _ eq_refl eq_refl eq_refl _ _).
  - discriminate.
  - cbn. intros [H|[]]. lra.
  - cbn. lia.
  - cbn. lra.
Defined.

Lemma default_tau_profile_witness :
  nth 0 (RelaxedAdjustment.get_convective_tau None [2; 1]) 0
  < nth 1 (RelaxedAdjustment.get_convective_tau None [2; 1]) 0.
Proof.
  refine (proj2 (proj2 (proj2 (@default_tau_profile [2; 1] 0%nat 1%nat _ _)))
            _ _ _ _).
  - discriminate.
  - cbn. intros [H|[H|[]]]; lra.
  - cbn. lia.
  - cbn. lia.
  - cbn. lra.
  - cbn. lra.
Defined.

End RealInstances.
